(** * Bulk Lifestyle AI: the batch runner and the image request client

    A shallow embedding of the types module, of [geminiService.ts] and of
    the state handlers of the [App] component, with the properties of the
    specification proved (or refuted) over it.

    Conventions of the embedding:
    - an optional property of a JS object ([resultUrl?], [error?],
      [inlineData?]) is an [option]; [undefined] is [None];
    - a promise is modelled by the value it settles with ([Settled]);
    - what the platform and the SDK answer (the [FileReader], the
      [generateContent] call, [Math.random], [URL.createObjectURL]) is an
      input of the model;
    - [URL.revokeObjectURL] and [console.error] do not touch the collection
      and are left out. *)

From Stdlib Require Import String Ascii List Bool Arith Lia.
Import ListNotations.
Open Scope string_scope.
Open Scope list_scope.

(* ================================================================== *)
(** ** The types module *)
(* ================================================================== *)

Module Status.
(** [status: 'pending' | 'processing' | 'completed' | 'error'] *)
Inductive t : Set := pending | processing | completed | error.

Definition eqb (a b : t) : bool :=
  match a, b with
  | pending, pending | processing, processing
  | completed, completed | error, error => true
  | _, _ => false
  end.
End Status.

(** The part of a DOM [File] the program reads: [file.name] and
    [file.type]. Its bytes only reach the program through the [FileReader],
    whose answer is an input of the model. *)
Record File : Set := { name : string; type : string }.

Record ImageFile : Set := {
  id : string;
  file : File;
  preview : string;
  status : Status.t;
  resultUrl : option string;
  error : option string
}.

(** The string enum [LifestylePreset]: a member's value is its text. *)
Inductive LifestylePreset : Set :=
| SCANDINAVIAN | MINIMALIST_ZEN | INDUSTRIAL_LOFT | MODERN_KITCHEN
| NATURE_OUTDOOR | LUXURY_STUDIO | BOHEMIAN_CHIC | TECH_OFFICE.

Definition preset_value (p : LifestylePreset) : string :=
  match p with
  | SCANDINAVIAN => "In a bright, airy Scandinavian living room with light wood furniture and soft textures"
  | MINIMALIST_ZEN => "In a minimalist zen space with natural stone, bamboo, and soft indirect lighting"
  | INDUSTRIAL_LOFT => "In a modern industrial loft with exposed brick, metal accents, and warm Edison bulbs"
  | MODERN_KITCHEN => "On a white marble kitchen island with high-end appliances and fresh herbs in the background"
  | NATURE_OUTDOOR => "On a rustic wooden table outdoors with blurred green forest and soft sunlight bokeh"
  | LUXURY_STUDIO => "In a high-end luxury studio setting with dramatic shadows and premium velvet textures"
  | BOHEMIAN_CHIC => "In a cozy bohemian room with plants, macrame, and warm sunbeams"
  | TECH_OFFICE => "On a clean white desk in a high-tech office with a blurred city skyline view"
  end.

(** ["1:1" | "3:4" | "4:3" | "9:16" | "16:9"] *)
Inductive AspectRatio : Set := ar_1_1 | ar_3_4 | ar_4_3 | ar_9_16 | ar_16_9.

(** [preset: LifestylePreset | string]: any string, the enum members being
    their texts. *)
Record GenerationSettings : Set := {
  preset : string;
  customPrompt : string;
  aspectRatio : AspectRatio
}.

(* ================================================================== *)
(** ** Values a promise settles with *)
(* ================================================================== *)

(** What the [catch] blocks can receive. The three constructors are the
    three places a rejection comes from:
    - [NoImageError]: the [new Error("No image was generated in the
      response.")] thrown by [generateLifestyleImage] itself;
    - [ApiError msg]: the [Error] the SDK call rejects with (transport or
      API failure), [msg] its message, rethrown by the [catch] of
      [generateLifestyleImage];
    - [ReadErrorEvent]: the argument of [reader.onerror], which
      [fileToBase64] passes to [reject]. The [FileReader] calls its [onerror]
      handler with the [ProgressEvent] named "error" (the [DOMException] is
      in [reader.error], which the code does not read); a [ProgressEvent] has
      no [message] property. *)
Inductive Thrown : Set :=
| NoImageError
| ApiError (msg : string)
| ReadErrorEvent.

(** [(error as Error).message]: a property read, [undefined] when the value
    has no such property. *)
Definition message (t : Thrown) : option string :=
  match t with
  | NoImageError => Some "No image was generated in the response."
  | ApiError msg => Some msg
  | ReadErrorEvent => None
  end.

Inductive Settled (A : Type) : Type :=
| Fulfilled (a : A)
| Rejected (t : Thrown).
Arguments Fulfilled {A} a.
Arguments Rejected {A} t.

(* ================================================================== *)
(** ** geminiService.ts *)
(* ================================================================== *)

(** [s.split(',')]: never empty, one more piece than there are commas. *)
Fixpoint split_comma (s : string) : list string :=
  match s with
  | EmptyString => [EmptyString]
  | String c s' =>
      if Ascii.eqb c ","%char then EmptyString :: split_comma s'
      else match split_comma s' with
           | h :: t => String c h :: t
           | [] => [String c EmptyString]
           end
  end.

(** How the [FileReader] answers [readAsDataURL]: [onload] with
    [reader.result], or [onerror]. *)
Inductive FileReaderOutcome : Set :=
| onload (result : string)
| onerror.

(** [fileToBase64]: [resolve((reader.result as string).split(',')[1])] on
    load, [reject(error)] with the handler's argument on error. The piece of
    index 1 is [undefined] when the result holds no comma. *)
Definition fileToBase64 (reader : FileReaderOutcome) : Settled (option string) :=
  match reader with
  | onload result => Fulfilled (nth_error (split_comma result) 1)
  | onerror => Rejected ReadErrorEvent
  end.

(** The SDK's [Blob], [Part], [Content], [Candidate] and
    [GenerateContentResponse], with the properties the code reads. *)
Record Blob : Set := { data : option string; mimeType : option string }.
Record Part : Set := { inlineData : option Blob; text : option string }.
Record Content : Set := { parts : option (list Part) }.
Record Candidate : Set := { content : option Content }.
Record GenerateContentResponse : Set := { candidates : option (list Candidate) }.

(** The argument of [ai.models.generateContent]. *)
Record GenerateContentParameters : Set := {
  model : string;
  contents : list Part;
  systemInstruction : string;
  imageConfig : AspectRatio
}.

(** A value inside a template literal: [undefined] prints as "undefined". *)
Definition interpolate (v : option string) : string :=
  match v with
  | Some s => s
  | None => "undefined"
  end.

Definition the_systemInstruction : string :=
"
    You are a world-class commercial product photographer and digital retoucher. 
    Your mission is to take a product image (often on a plain white background) and seamlessly place it into a photorealistic lifestyle environment.
    
    CORE REQUIREMENTS:
    1. PRODUCT INTEGRITY: Do NOT alter the product's shape, color, texture, or branding. The product must remain the central hero of the shot.
    2. LIGHTING CONSISTENCY: Analyze the light on the product and ensure the new environment's lighting matches perfectly. Add realistic contact shadows, ambient occlusion, and reflections where the product meets surfaces.
    3. PHOTOREALISM: The background should be high-resolution with realistic depth-of-field (bokeh) to keep focus on the product.
    4. COMPOSITION: Place the product in a logical, aesthetically pleasing position (e.g., on a table, floor, or shelf).
    5. No extra text, watermarks, or distorted elements.
  ".

Definition request_text (prompt : string) : string :=
  "Create a professional lifestyle photo of this product. Environment description: "
  ++ prompt
  ++ ". Ensure the product is perfectly integrated with realistic lighting and shadows.".

Definition build_request (base64Data : option string) (mimeType : string)
    (prompt : string) (aspectRatio : AspectRatio) : GenerateContentParameters :=
  {| model := "gemini-2.5-flash-image";
     contents :=
       [ {| inlineData := Some {| data := base64Data; mimeType := Some mimeType |};
            text := None |};
         {| inlineData := None; text := Some (request_text prompt) |} ];
     systemInstruction := the_systemInstruction;
     imageConfig := aspectRatio |}.

(** [response.candidates?.[0]?.content?.parts || []] *)
Definition response_parts (response : GenerateContentResponse) : list Part :=
  match candidates response with
  | Some (c :: _) =>
      match content c with
      | Some ct => match parts ct with Some ps => ps | None => [] end
      | None => []
      end
  | _ => []
  end.

(** The [for ... of] loop with its [break]: [imageUrl] starts as [''] and is
    assigned at the first part whose [inlineData] is truthy. *)
Fixpoint scan_parts (ps : list Part) : string :=
  match ps with
  | [] => ""
  | part :: rest =>
      match inlineData part with
      | Some blob => "data:image/png;base64," ++ interpolate (data blob)
      | None => scan_parts rest
      end
  end.

(** [if (!imageUrl)]: the empty string is the only falsy string. *)
Definition falsy (s : string) : bool :=
  match s with EmptyString => true | _ => false end.

(** How [ai.models.generateContent] settles: with a response, or with the
    SDK's error (transport or API failure), [msg] being its message. *)
Inductive ApiOutcome : Set :=
| api_resolves (response : GenerateContentResponse)
| api_rejects (msg : string).

(** [generateLifestyleImage]. [api] is the answer of
    [ai.models.generateContent] to the request; the [catch] logs and
    rethrows, so a rejection of the call and the error thrown at the end of
    the [try] both reject the promise unchanged. *)
Definition generateLifestyleImage
    (api : GenerateContentParameters -> ApiOutcome)
    (base64Data : option string) (mimeType : string) (prompt : string)
    (aspectRatio : AspectRatio) : Settled string :=
  match api (build_request base64Data mimeType prompt aspectRatio) with
  | api_rejects msg => Rejected (ApiError msg)
  | api_resolves response =>
      let imageUrl := scan_parts (response_parts response) in
      if falsy imageUrl then Rejected NoImageError else Fulfilled imageUrl
  end.

(* ================================================================== *)
(** ** The App component: the collection and its updates *)
(* ================================================================== *)

(** [{ ...item, status: 'processing' }] *)
Definition set_processing (item : ImageFile) : ImageFile :=
  {| id := id item; file := file item; preview := preview item;
     status := Status.processing;
     resultUrl := resultUrl item; error := error item |}.

(** [{ ...item, status: 'completed', resultUrl }] *)
Definition set_completed (url : string) (item : ImageFile) : ImageFile :=
  {| id := id item; file := file item; preview := preview item;
     status := Status.completed;
     resultUrl := Some url; error := error item |}.

(** [{ ...item, status: 'error', error: (error as Error).message }] *)
Definition set_error (msg : option string) (item : ImageFile) : ImageFile :=
  {| id := id item; file := file item; preview := preview item;
     status := Status.error;
     resultUrl := resultUrl item; error := msg |}.

(** [prev.map(item => item.id === img.id ? f item : item)], the shape of the
    three [setImages] calls of [startProcessing]. *)
Definition update_by_id (imgId : string) (f : ImageFile -> ImageFile)
    (prev : list ImageFile) : list ImageFile :=
  map (fun item => if String.eqb (id item) imgId then f item else item) prev.

(** One entry of [e.target.files] with what [Math.random] and
    [URL.createObjectURL] answer for it. *)
Record Picked : Set := {
  picked_file : File;
  random_id : string;
  object_url : string
}.

Definition new_image (p : Picked) : ImageFile :=
  {| id := random_id p; file := picked_file p; preview := object_url p;
     status := Status.pending; resultUrl := None; error := None |}.

(** [handleFileChange]: [files] is [e.target.files], [null] being [None]. *)
Definition handleFileChange (files : option (list Picked))
    (prev : list ImageFile) : list ImageFile :=
  match files with
  | Some fs => prev ++ map new_image fs
  | None => prev
  end.

(** [removeImage]: [prev.filter(img => img.id !== id)] *)
Definition removeImage (imgId : string) (prev : list ImageFile) : list ImageFile :=
  filter (fun img => negb (String.eqb (id img) imgId)) prev.

(** [settings.customPrompt || settings.preset] *)
Definition finalPrompt (settings : GenerationSettings) : string :=
  if falsy (customPrompt settings) then preset settings
  else customPrompt settings.

(** What the outside answers while one item is processed: the [FileReader]
    for its file, and the SDK for the request. *)
Record ItemEnv : Type := {
  reader : FileReaderOutcome;
  api : GenerateContentParameters -> ApiOutcome
}.

(** The [try] block of one iteration: the two awaited calls. *)
Definition process_item (img : ImageFile) (e : ItemEnv)
    (prompt : string) (ar : AspectRatio) : Settled string :=
  match fileToBase64 (reader e) with
  | Rejected t => Rejected t
  | Fulfilled base64 =>
      generateLifestyleImage (api e) base64 (type (file img)) prompt ar
  end.

(** The [setImages] that ends the iteration: in the [try] on success, in the
    [catch] on failure. *)
Definition write_back (img : ImageFile) (r : Settled string)
    (prev : list ImageFile) : list ImageFile :=
  match r with
  | Fulfilled url => update_by_id (id img) (set_completed url) prev
  | Rejected t => update_by_id (id img) (set_error (message t)) prev
  end.

(** The calls a run makes, each tagged with the loop index [i] of the item
    it is made for. *)
Inductive IOEvent : Set :=
| call_fileToBase64 (i : nat) (f : File)
| settled_fileToBase64 (i : nat)
| call_generateLifestyleImage (i : nat) (base64Data : option string)
    (mimeType prompt : string) (aspectRatio : AspectRatio)
| settled_generateLifestyleImage (i : nat).

Definition io_index (ev : IOEvent) : nat :=
  match ev with
  | call_fileToBase64 i _ | settled_fileToBase64 i
  | call_generateLifestyleImage i _ _ _ _
  | settled_generateLifestyleImage i => i
  end.

(** The calls of one iteration: [generateLifestyleImage] is only reached
    when [fileToBase64] resolved. *)
Definition item_io (i : nat) (img : ImageFile) (e : ItemEnv)
    (prompt : string) (ar : AspectRatio) : list IOEvent :=
  call_fileToBase64 i (file img) :: settled_fileToBase64 i ::
  match fileToBase64 (reader e) with
  | Rejected _ => []
  | Fulfilled base64 =>
      [ call_generateLifestyleImage i base64 (type (file img)) prompt ar;
        settled_generateLifestyleImage i ]
  end.

(** *** The run as a function

    [startProcessing] run to its end with no other handler in between.
    [todo] is what is left of the [images] the closure captured, [i] the
    loop index, [cur] the state the [setImages] updaters receive as [prev];
    [env i] is what the outside answers for the item of index [i]. *)
Fixpoint loop_images (prompt : string) (ar : AspectRatio) (env : nat -> ItemEnv)
    (i : nat) (todo cur : list ImageFile) : list ImageFile :=
  match todo with
  | [] => cur
  | img :: todo' =>
      if Status.eqb (status img) Status.completed
      then loop_images prompt ar env (S i) todo' cur
      else
        let cur1 := update_by_id (id img) set_processing cur in
        let cur2 := write_back img (process_item img (env i) prompt ar) cur1 in
        loop_images prompt ar env (S i) todo' cur2
  end.

Fixpoint loop_io (prompt : string) (ar : AspectRatio) (env : nat -> ItemEnv)
    (i : nat) (todo : list ImageFile) : list IOEvent :=
  match todo with
  | [] => []
  | img :: todo' =>
      if Status.eqb (status img) Status.completed
      then loop_io prompt ar env (S i) todo'
      else item_io i img (env i) prompt ar ++ loop_io prompt ar env (S i) todo'
  end.

(** The suspended [startProcessing]: it waits for the calls made for [t_img];
    [t_rest] is what the loop has still to visit, and the prompt and aspect
    ratio are those of the [settings] the closure captured. *)
Record Task : Set := {
  t_img : ImageFile;
  t_rest : list ImageFile;
  t_finalPrompt : string;
  t_aspectRatio : AspectRatio
}.

Record App : Set := {
  images : list ImageFile;
  settings : GenerationSettings;
  isProcessing : bool;
  tasks : list Task
}.

(** The component's initial state. *)
Definition initial : App :=
  {| images := [];
     settings := {| preset := preset_value SCANDINAVIAN;
                    customPrompt := "";
                    aspectRatio := ar_1_1 |};
     isProcessing := false;
     tasks := [] |}.

Definition startProcessing (env : nat -> ItemEnv) (app : App) : App * list IOEvent :=
  match images app with
  | [] => (app, [])
  | _ :: _ =>
      let prompt := finalPrompt (settings app) in
      let ar := aspectRatio (settings app) in
      ({| images := loop_images prompt ar env 0 (images app) (images app);
          settings := settings app;
          isProcessing := false;
          tasks := tasks app |},
       loop_io prompt ar env 0 (images app))
  end.

(** *** The run as a coroutine

    Between the [setImages] that marks an item as processing and the one
    that writes its outcome, [startProcessing] is suspended on its two
    [await]s and other handlers may run. No state is written between the two
    [await]s, so they are resumed in one step. *)

(** The [for] loop from [todo] on, up to its next [await] or its end. *)
Fixpoint advance (prompt : string) (ar : AspectRatio)
    (todo cur : list ImageFile) : list ImageFile * option Task :=
  match todo with
  | [] => (cur, None)
  | img :: todo' =>
      if Status.eqb (status img) Status.completed
      then advance prompt ar todo' cur
      else (update_by_id (id img) set_processing cur,
            Some {| t_img := img; t_rest := todo';
                    t_finalPrompt := prompt; t_aspectRatio := ar |})
  end.

Definition replace_nth {A} (k : nat) (x : A) (l : list A) : list A :=
  firstn k l ++ x :: skipn (S k) l.

Definition remove_nth {A} (k : nat) (l : list A) : list A :=
  firstn k l ++ skipn (S k) l.

(** The click on the start button: [startProcessing] up to its first
    [await] (or to its end when every item is already completed). *)
Definition startProcessing_begin (app : App) : App :=
  match images app with
  | [] => app
  | _ :: _ =>
      match advance (finalPrompt (settings app)) (aspectRatio (settings app))
                    (images app) (images app) with
      | (imgs, Some t) =>
          {| images := imgs; settings := settings app;
             isProcessing := true; tasks := tasks app ++ [t] |}
      | (imgs, None) =>
          {| images := imgs; settings := settings app;
             isProcessing := false; tasks := tasks app |}
      end
  end.

(** The calls of the [k]-th suspended run settle as [e] says: the outcome is
    written back and the loop goes on to its next [await] or to
    [setIsProcessing(false)]. *)
Definition resume (k : nat) (e : ItemEnv) (app : App) : App :=
  match nth_error (tasks app) k with
  | None => app
  | Some t =>
      let r := process_item (t_img t) e (t_finalPrompt t) (t_aspectRatio t) in
      match advance (t_finalPrompt t) (t_aspectRatio t) (t_rest t)
                    (write_back (t_img t) r (images app)) with
      | (imgs, Some t') =>
          {| images := imgs; settings := settings app;
             isProcessing := isProcessing app;
             tasks := replace_nth k t' (tasks app) |}
      | (imgs, None) =>
          {| images := imgs; settings := settings app;
             isProcessing := false;
             tasks := remove_nth k (tasks app) |}
      end
  end.

(** [clearAll]: [setImages([]); setIsProcessing(false)] *)
Definition clearAll (app : App) : App :=
  {| images := []; settings := settings app;
     isProcessing := false; tasks := tasks app |}.

Inductive Event : Type :=
| FileChange (files : option (list Picked))
| RemoveImage (imgId : string)
| ClearAll
| SetSettings (s : GenerationSettings)
| StartProcessing
| Resume (k : nat) (e : ItemEnv).

Definition handle (app : App) (ev : Event) : App :=
  match ev with
  | FileChange files =>
      {| images := handleFileChange files (images app);
         settings := settings app; isProcessing := isProcessing app;
         tasks := tasks app |}
  | RemoveImage imgId =>
      {| images := removeImage imgId (images app);
         settings := settings app; isProcessing := isProcessing app;
         tasks := tasks app |}
  | ClearAll => clearAll app
  | SetSettings s =>
      {| images := images app; settings := s;
         isProcessing := isProcessing app; tasks := tasks app |}
  | StartProcessing => startProcessing_begin app
  | Resume k e => resume k e app
  end.

Definition run_events (app : App) (evs : list Event) : App :=
  fold_left handle evs app.

Definition is_nil {A} (l : list A) : bool :=
  match l with [] => true | _ => false end.

(** What the rendered page lets the user do:
    - the file input is the drop zone of the empty collection, or the
      "Add Images" slot, rendered when [!isProcessing];
    - an item has a remove button in its hover overlay when
      [!isProcessing && img.status !== 'processing'], and in its error
      overlay when [img.status === 'error'];
    - "Clear" is rendered when the collection is not empty and disabled
      while [isProcessing];
    - the start button is disabled when [isProcessing || images.length === 0];
    - the settings controls are never disabled;
    - a suspended run can be resumed. *)
Definition enabled (app : App) (ev : Event) : bool :=
  match ev with
  | FileChange _ => is_nil (images app) || negb (isProcessing app)
  | RemoveImage imgId =>
      existsb (fun img =>
                 String.eqb (id img) imgId &&
                 ((negb (isProcessing app) &&
                   negb (Status.eqb (status img) Status.processing))
                  || Status.eqb (status img) Status.error))
              (images app)
  | ClearAll => negb (is_nil (images app)) && negb (isProcessing app)
  | SetSettings _ => true
  | StartProcessing => negb (isProcessing app) && negb (is_nil (images app))
  | Resume k _ => Nat.ltb k (List.length (tasks app))
  end.

Fixpoint distinct (l : list string) : bool :=
  match l with
  | [] => true
  | x :: l' => negb (existsb (String.eqb x) l') && distinct l'
  end.

(** The identifiers [Math.random] gives to added files are new: the data
    model's "unique identifier". *)
Definition fresh_ids (app : App) (ev : Event) : bool :=
  match ev with
  | FileChange (Some fs) => distinct (map id (images app) ++ map random_id fs)
  | _ => true
  end.

Fixpoint admissible (app : App) (evs : list Event) : bool :=
  match evs with
  | [] => true
  | ev :: evs' =>
      enabled app ev && fresh_ids app ev && admissible (handle app ev) evs'
  end.

(** *** Predicates of the statements *)

Definition terminal (item : ImageFile) : Prop :=
  status item = Status.completed \/ status item = Status.error.

Definition is_set {A} (o : option A) : Prop := o <> None.

(** The invariant of the data model, in the specification's words: exactly
    one of the two fields is set, and only when the status is completed or
    error respectively; a pending or processing item has neither. *)
Definition spec_invariant (item : ImageFile) : Prop :=
  match status item with
  | Status.completed => is_set (resultUrl item) /\ error item = None
  | Status.error => is_set (error item) /\ resultUrl item = None
  | Status.pending | Status.processing =>
      resultUrl item = None /\ error item = None
  end.

(** What the code keeps of it: a pending item has neither field, and the
    result is set exactly on the completed items. The error field of an
    item that is not pending is not constrained. *)
Definition code_invariant (item : ImageFile) : Prop :=
  (status item = Status.pending -> resultUrl item = None /\ error item = None)
  /\ (is_set (resultUrl item) <-> status item = Status.completed).

(** A rejection that carries a message. *)
Definition has_message (r : Settled string) : Prop :=
  match r with
  | Fulfilled _ => True
  | Rejected t => is_set (message t)
  end.

(** No two calls in flight: a call is only made when none is open, and the
    next thing to happen is its own settlement. [open] is the index of the
    call in flight, if any. *)
Fixpoint sequential (open : option nat) (io : list IOEvent) : bool :=
  match io with
  | [] => match open with None => true | Some _ => false end
  | (call_fileToBase64 i _ | call_generateLifestyleImage i _ _ _ _) :: io' =>
      match open with
      | None => sequential (Some i) io'
      | Some _ => false
      end
  | (settled_fileToBase64 i | settled_generateLifestyleImage i) :: io' =>
      match open with
      | Some j => Nat.eqb i j && sequential None io'
      | None => false
      end
  end.

Definition is_generate_call (ev : IOEvent) : bool :=
  match ev with
  | call_generateLifestyleImage _ _ _ _ _ => true
  | _ => false
  end.

(** The item of loop index [i] is submitted: it is not already completed
    and its file is read. *)
Definition submitted (env : nat -> ItemEnv) (imgs : list ImageFile) (i : nat) : bool :=
  match nth_error imgs i with
  | Some img =>
      negb (Status.eqb (status img) Status.completed) &&
      match fileToBase64 (reader (env i)) with
      | Fulfilled _ => true
      | Rejected _ => false
      end
  | None => false
  end.

(* ================================================================== *)
(** ** The rest of the component: statistics and downloads *)
(* ================================================================== *)

(** [s.split(sep)] for a separator of one character. *)
Fixpoint split_on (sep : ascii) (s : string) : list string :=
  match s with
  | EmptyString => [EmptyString]
  | String c s' =>
      if Ascii.eqb c sep then EmptyString :: split_on sep s'
      else match split_on sep s' with
           | h :: t => String c h :: t
           | [] => [String c EmptyString]
           end
  end.

Module Stats.
(** The value of the [stats] memo, but for [progress], a floating-point
    quotient of [completed] by [total] that only sets the width of the
    progress bar. *)
Record t : Set := {
  total : nat;
  completed : nat;
  processing : nat;
  error : nat
}.
End Stats.

(** [img => img.status === st] *)
Definition has_status (st : Status.t) (img : ImageFile) : bool :=
  Status.eqb (status img) st.

(** [stats]: [images.length] and the [images.filter(...).length] counts. *)
Definition stats (images : list ImageFile) : Stats.t :=
  {| Stats.total := length images;
     Stats.completed := length (filter (has_status Status.completed) images);
     Stats.processing := length (filter (has_status Status.processing) images);
     Stats.error := length (filter (has_status Status.error) images) |}.

(** An optional string used as a condition: [undefined] and [''] are falsy. *)
Definition truthy (o : option string) : bool :=
  match o with
  | Some s => negb (falsy s)
  | None => false
  end.

(** One click on a temporary link: its [href] and its [download] name. *)
Record Download : Set := { href : string; download : string }.

(** [`lifestyle-${img.file.name.split('.')[0]}.png`] *)
Definition bulk_name (f : File) : string :=
  "lifestyle-" ++ interpolate (nth_error (split_on "."%char (name f)) 0) ++ ".png".

(** [downloadAll]: a link is clicked for each item that passes
    [img.status === 'completed' && img.resultUrl], in the order of the
    collection; [img.resultUrl!] is then a string. *)
Definition downloadAll (images : list ImageFile) : list Download :=
  map (fun img => {| href := interpolate (resultUrl img);
                     download := bulk_name (file img) |})
      (filter (fun img => has_status Status.completed img && truthy (resultUrl img))
              images).

(* ================================================================== *)
(** ** The proxy handler *)
(* ================================================================== *)

Module Proxy.

(** How [context.request.json()] settles. The handler only passes the
    parsed body to [JSON.stringify], so a body is named by that text; a
    rejection is named by the [message] of what is thrown, if it has one. *)
Inductive JsonOutcome : Set :=
| json_resolves (stringified : string)
| json_rejects (message : option string).

(** How [response.text()] settles. *)
Inductive TextOutcome : Set :=
| text_resolves (data : string)
| text_rejects (message : option string).

(** How [fetch] settles: with a response, of any HTTP status, or with a
    rejection (network failure). *)
Inductive FetchOutcome : Set :=
| fetch_resolves (upstream_status : nat) (text : TextOutcome)
| fetch_rejects (message : option string).

(** The arguments of [fetch]. *)
Record FetchRequest : Set := {
  url : string;
  method : string;
  request_headers : list (string * string);
  request_body : string
}.

(** [context]: the request and [context.env.GEMINI_API_KEY]. *)
Record Context : Set := {
  request_json : JsonOutcome;
  GEMINI_API_KEY : option string
}.

(** The body given to [new Response]: the upstream text, or
    [JSON.stringify({ error: err.message })]. *)
Inductive Body : Set :=
| upstream_text (data : string)
| error_envelope (message : option string).

(** [new Response(body, init)]: [status] is 200 when [init] names none, and
    [headers] are those of [init]. *)
Record Response : Set := {
  body : Body;
  status : nat;
  headers : list (string * string)
}.

Definition upstream_request (context : Context) (stringified : string) : FetchRequest :=
  {| url := "https://generativelanguage.googleapis.com/v1beta/models/gemini-3-flash-preview:generateContent?key="
            ++ interpolate (GEMINI_API_KEY context);
     method := "POST";
     request_headers := [("Content-Type", "application/json")];
     request_body := stringified |}.

Definition failed (message : option string) : Response :=
  {| body := error_envelope message; status := 500; headers := [] |}.

(** [onRequestPost]: the response, and the requests made upstream. *)
Definition onRequestPost (fetch : FetchRequest -> FetchOutcome) (context : Context)
    : Response * list FetchRequest :=
  match request_json context with
  | json_rejects message => (failed message, [])
  | json_resolves stringified =>
      let request := upstream_request context stringified in
      match fetch request with
      | fetch_rejects message => (failed message, [request])
      | fetch_resolves _ (text_rejects message) => (failed message, [request])
      | fetch_resolves _ (text_resolves data) =>
          ({| body := upstream_text data; status := 200;
              headers := [("Content-Type", "application/json")] |},
           [request])
      end
  end.

End Proxy.

(* ================================================================== *)
(** ** The run as a program of effects *)
(* ================================================================== *)

(** [startProcessing] as the program it is. The program has no access to
    what the outside answers: it starts a file read or an API request,
    which gives it a promise, and an answer only reaches it where it awaits
    that promise. State is only written by [setImages] and
    [setIsProcessing]. An execution yields the final state together with
    the trace of the reads and requests it started and awaited. *)

Record ReadPromise : Set := { read_index : nat; read_file : File }.

Record RequestPromise : Set := {
  request_index : nat;
  request_sent : GenerateContentParameters
}.

Inductive Run (A : Type) : Type :=
| Return (a : A)
| SetImages (updater : list ImageFile -> list ImageFile) (k : Run A)
| SetIsProcessing (b : bool) (k : Run A)
| StartRead (i : nat) (f : File) (k : ReadPromise -> Run A)
| AwaitRead (p : ReadPromise) (k : FileReaderOutcome -> Run A)
| StartRequest (i : nat) (request : GenerateContentParameters)
    (k : RequestPromise -> Run A)
| AwaitRequest (p : RequestPromise) (k : ApiOutcome -> Run A).
Arguments Return {A} a.
Arguments SetImages {A} updater k.
Arguments SetIsProcessing {A} b k.
Arguments StartRead {A} i f k.
Arguments AwaitRead {A} p k.
Arguments StartRequest {A} i request k.
Arguments AwaitRequest {A} p k.

Fixpoint bind {A B} (m : Run A) (f : A -> Run B) : Run B :=
  match m with
  | Return a => f a
  | SetImages u k => SetImages u (bind k f)
  | SetIsProcessing b k => SetIsProcessing b (bind k f)
  | StartRead i file k => StartRead i file (fun p => bind (k p) f)
  | AwaitRead p k => AwaitRead p (fun o => bind (k o) f)
  | StartRequest i request k => StartRequest i request (fun p => bind (k p) f)
  | AwaitRequest p k => AwaitRequest p (fun o => bind (k o) f)
  end.

Notation "x <- m ;; k" := (bind m (fun x => k))
  (at level 61, m at next level, right associativity).

Definition setImages (updater : list ImageFile -> list ImageFile) : Run unit :=
  SetImages updater (Return tt).

Definition setIsProcessing (b : bool) : Run unit :=
  SetIsProcessing b (Return tt).

(** [await fileToBase64(file)], for the item of loop index [i]: the call
    starts the read ([reader.readAsDataURL(file)] runs in the promise's
    executor), the [await] waits for [onload] or [onerror]. *)
Definition await_fileToBase64 (i : nat) (f : File) : Run (Settled (option string)) :=
  StartRead i f (fun p =>
  AwaitRead p (fun outcome =>
  Return (fileToBase64 outcome))).

(** [await generateLifestyleImage(base64, mimeType, prompt, aspectRatio)],
    for the item of loop index [i]: the call sends the request it builds,
    and the rest of the function runs on what the API answers. *)
Definition await_generateLifestyleImage (i : nat) (base64Data : option string)
    (mimeType prompt : string) (aspectRatio : AspectRatio) : Run (Settled string) :=
  StartRequest i (build_request base64Data mimeType prompt aspectRatio) (fun p =>
  AwaitRequest p (fun outcome =>
  Return (generateLifestyleImage (fun _ => outcome)
            base64Data mimeType prompt aspectRatio))).

(** The [for] loop from index [i] on, [todo] being what is left of the
    [images] the closure captured. *)
Fixpoint loop_run (prompt : string) (ar : AspectRatio) (i : nat)
    (todo : list ImageFile) : Run unit :=
  match todo with
  | [] => Return tt
  | img :: todo' =>
      if Status.eqb (status img) Status.completed
      then loop_run prompt ar (S i) todo'
      else
        _ <- setImages (update_by_id (id img) set_processing) ;;
        r <- (base64 <- await_fileToBase64 i (file img) ;;
              match base64 with
              | Rejected t => Return (Rejected t)
              | Fulfilled b =>
                  await_generateLifestyleImage i b (type (file img)) prompt ar
              end) ;;
        _ <- setImages (write_back img r) ;;
        loop_run prompt ar (S i) todo'
  end.

Definition startProcessing_run (images : list ImageFile)
    (settings : GenerationSettings) : Run unit :=
  match images with
  | [] => Return tt
  | _ :: _ =>
      _ <- setIsProcessing true ;;
      _ <- loop_run (finalPrompt settings) (aspectRatio settings) 0 images ;;
      setIsProcessing false
  end.

(** What an execution does outside: the reads and the requests, started
    and settled, each with the loop index of the item it is made for. *)
Inductive Effect : Set :=
| read_started (i : nat) (f : File)
| read_settled (i : nat)
| request_started (i : nat) (request : GenerateContentParameters)
| request_settled (i : nat).

Definition logged {A} (ev : Effect) (r : A * App * list Effect)
    : A * App * list Effect :=
  (fst (fst r), snd (fst r), ev :: snd r).

(** The execution of a program from the state [app]: the promise of a read
    or of a request settles as [env] says for its loop index. *)
Fixpoint interpret {A} (env : nat -> ItemEnv) (m : Run A) (app : App)
    : A * App * list Effect :=
  match m with
  | Return a => (a, app, [])
  | SetImages updater k =>
      interpret env k {| images := updater (images app);
                         settings := settings app;
                         isProcessing := isProcessing app;
                         tasks := tasks app |}
  | SetIsProcessing b k =>
      interpret env k {| images := images app;
                         settings := settings app;
                         isProcessing := b;
                         tasks := tasks app |}
  | StartRead i f k =>
      logged (read_started i f)
             (interpret env (k {| read_index := i; read_file := f |}) app)
  | AwaitRead p k =>
      logged (read_settled (read_index p))
             (interpret env (k (reader (env (read_index p)))) app)
  | StartRequest i request k =>
      logged (request_started i request)
             (interpret env (k {| request_index := i; request_sent := request |}) app)
  | AwaitRequest p k =>
      logged (request_settled (request_index p))
             (interpret env (k (api (env (request_index p)) (request_sent p))) app)
  end.

(** [startProcessing], executed from the state the page is in. *)
Definition execute (env : nat -> ItemEnv) (app : App) : unit * App * list Effect :=
  interpret env (startProcessing_run (images app) (settings app)) app.

Definition effect_index (ev : Effect) : nat :=
  match ev with
  | read_started i _ | read_settled i
  | request_started i _ | request_settled i => i
  end.


Definition is_request (ev : Effect) : bool :=
  match ev with request_started _ _ => true | _ => false end.

(** At most one promise pending at any time: nothing is started while a
    promise is pending, and the promise that settles is the pending one.
    [pending] is the loop index of the pending promise, if any. *)
Fixpoint one_at_a_time (pending : option nat) (trace : list Effect) : bool :=
  match trace with
  | [] => match pending with None => true | Some _ => false end
  | (read_started i _ | request_started i _) :: trace' =>
      match pending with
      | None => one_at_a_time (Some i) trace'
      | Some _ => false
      end
  | (read_settled i | request_settled i) :: trace' =>
      match pending with
      | Some j => Nat.eqb i j && one_at_a_time None trace'
      | None => false
      end
  end.

(** The effect behind a call of the log of [startProcessing]. *)
Definition effect_of_call (ev : IOEvent) : Effect :=
  match ev with
  | call_fileToBase64 i f => read_started i f
  | settled_fileToBase64 i => read_settled i
  | call_generateLifestyleImage i b m p a =>
      request_started i (build_request b m p a)
  | settled_generateLifestyleImage i => request_settled i
  end.

(** The state with another collection. *)
Definition with_images (imgs : list ImageFile) (app : App) : App :=
  {| images := imgs; settings := settings app;
     isProcessing := isProcessing app; tasks := tasks app |}.

(* ================================================================== *)
(** ** The settings controls *)
(* ================================================================== *)

(** The entries of the preset selector: one per member of
    [LifestylePreset], with the member's text as value, and the entry
    "Custom description...", whose value is the marker [CUSTOM]. *)
Inductive PresetOption : Set :=
| preset_option (p : LifestylePreset)
| custom_option.

Definition option_value (o : PresetOption) : string :=
  match o with
  | preset_option p => preset_value p
  | custom_option => "CUSTOM"
  end.

(** The three controls: the selector, the text area, the ratio buttons. *)
Inductive SettingsEdit : Set :=
| select_entry (o : PresetOption)
| type_custom (text : string)
| click_ratio (ratio : AspectRatio).

(** [setSettings(s => ({ ...s, preset: e.target.value }))] and its two
    siblings. *)
Definition edit_settings (s : GenerationSettings) (e : SettingsEdit)
    : GenerationSettings :=
  match e with
  | select_entry o =>
      {| preset := option_value o; customPrompt := customPrompt s;
         aspectRatio := aspectRatio s |}
  | type_custom text =>
      {| preset := preset s; customPrompt := text;
         aspectRatio := aspectRatio s |}
  | click_ratio ratio =>
      {| preset := preset s; customPrompt := customPrompt s;
         aspectRatio := ratio |}
  end.

(** The settings after the user worked the controls, from the initial
    ones. *)
Definition page_settings (edits : list SettingsEdit) : GenerationSettings :=
  fold_left edit_settings edits (settings initial).

(** The entry the selector shows: the last one selected. *)
Fixpoint selected_entry (edits : list SettingsEdit) (current : PresetOption)
    : PresetOption :=
  match edits with
  | [] => current
  | select_entry o :: edits' => selected_entry edits' o
  | _ :: edits' => selected_entry edits' current
  end.

(** The text the text area holds: the last one typed. *)
Fixpoint custom_text (edits : list SettingsEdit) (current : string) : string :=
  match edits with
  | [] => current
  | type_custom text :: edits' => custom_text edits' text
  | _ :: edits' => custom_text edits' current
  end.

(** The effective prompt as the specification resolves it: the custom text
    when it is not empty, and otherwise the description text of a preset. *)
Definition effective_prompt_claim : Prop :=
  forall edits,
    let s := page_settings edits in
    (customPrompt s <> "" -> finalPrompt s = customPrompt s)
    /\ (customPrompt s = "" ->
        exists p : LifestylePreset, finalPrompt s = preset_value p).

(** The text of the task instruction for a scene. *)
Definition task_instruction (scene : string) : Part :=
  {| inlineData := None;
     text := Some ("Create a professional lifestyle photo of this product. Environment description: "
                   ++ scene
                   ++ ". Ensure the product is perfectly integrated with realistic lighting and shadows.")%string |}.

(* ================================================================== *)
(** ** Predicates and auxiliary functions of the statements *)
(* ================================================================== *)

Definition no_image (part : Part) : Prop := inlineData part = None.

(** What the last [setImages] of an iteration does to a matching item. *)
Definition outcome_update (r : Settled string) : ImageFile -> ImageFile :=
  match r with
  | Fulfilled url => set_completed url
  | Rejected t => set_error (message t)
  end.

Definition keeps_id (f : ImageFile -> ImageFile) : Prop :=
  forall item, id (f item) = id item.

(** One whole iteration on a matching item. *)
Definition iteration_update (r : Settled string) (item : ImageFile) : ImageFile :=
  outcome_update r (set_processing item).

(** Every item of [cur] is terminal or still has a twin to be processed. *)
Definition settles (todo cur : list ImageFile) : Prop :=
  forall item, In item cur ->
    terminal item \/
    exists s, In s todo /\ status s <> Status.completed /\ id s = id item.

(** The identifiers borne by the items still to visit that are not
    completed have no result yet in the collection. *)
Definition awaited (todo imgs : list ImageFile) : Prop :=
  forall s item,
    In s todo -> status s <> Status.completed ->
    In item imgs -> id item = id s -> resultUrl item = None.

Definition task_ok (imgs : list ImageFile) (t : Task) : Prop :=
  NoDup (map id (t_img t :: t_rest t))
  /\ status (t_img t) <> Status.completed
  /\ awaited (t_img t :: t_rest t) imgs.

(** The invariant of the component under the page's gating: unique
    identifiers, the items' invariant, and at most one run, in progress
    exactly when [isProcessing] is set. *)
Definition app_ok (app : App) : Prop :=
  NoDup (map id (images app))
  /\ Forall code_invariant (images app)
  /\ (isProcessing app = false -> tasks app = [])
  /\ (tasks app = [] \/ exists t, tasks app = [t] /\ task_ok (images app) t).

(** An item in error carries a message. *)
Definition error_has_message (item : ImageFile) : Prop :=
  status item = Status.error -> is_set (error item).

(** The event is not the settlement of a run whose file could not be read. *)
Definition file_read (ev : Event) : Prop :=
  match ev with
  | Resume _ e => reader e <> onerror
  | _ => True
  end.

(** The invariant of the specification, claimed of every state the page can
    reach from the initial one, added files bearing new identifiers. *)
Definition spec_invariant_always : Prop :=
  forall evs, admissible initial evs = true ->
              Forall spec_invariant (images (run_events initial evs)).

(** What the outside answers, in the order the loop asks: the answers for
    the items that are not already completed. *)
Fixpoint pending_envs (env : nat -> ItemEnv) (i : nat) (todo : list ImageFile)
    : list ItemEnv :=
  match todo with
  | [] => []
  | img :: todo' =>
      if Status.eqb (status img) Status.completed
      then pending_envs env (S i) todo'
      else env i :: pending_envs env (S i) todo'
  end.

(** The settlements of the events of a single run among which the settings
    are edited; [None] when anything else happens. *)
Fixpoint resumptions (evs : list Event) : option (list ItemEnv) :=
  match evs with
  | [] => Some []
  | Resume 0 e :: evs' => option_map (cons e) (resumptions evs')
  | SetSettings _ :: evs' => resumptions evs'
  | _ => None
  end.

Definition suspended (next : option Task) : list Task :=
  match next with
  | Some t => [t]
  | None => []
  end.

(** The string holds the character. *)
Fixpoint has_char (c : ascii) (s : string) : bool :=
  match s with
  | EmptyString => false
  | String c' s' => Ascii.eqb c' c || has_char c s'
  end.

(** The parts of a response as its optional properties give them, in the
    words of a reader of the response: no candidate, a first candidate
    without content, a content without parts, or the parts of the first
    candidate. *)
Inductive parts_of : GenerateContentResponse -> list Part -> Prop :=
| parts_no_candidates : parts_of {| candidates := None |} []
| parts_empty_candidates : parts_of {| candidates := Some [] |} []
| parts_no_content cs :
    parts_of {| candidates := Some ({| content := None |} :: cs) |} []
| parts_no_parts cs :
    parts_of {| candidates := Some ({| content := Some {| parts := None |} |} :: cs) |} []
| parts_first_candidate ps cs :
    parts_of {| candidates :=
                 Some ({| content := Some {| parts := Some ps |} |} :: cs) |} ps.

(** What a run never touches of an item. *)
Definition identity_of (item : ImageFile) : string * File * string :=
  (id item, file item, preview item).

(** Every item that the run has to process is processed with success. *)
Definition all_succeed (env : nat -> ItemEnv) (app : App) : Prop :=
  forall i img,
    nth_error (images app) i = Some img ->
    status img <> Status.completed ->
    exists url,
      process_item img (env i) (finalPrompt (settings app))
                   (aspectRatio (settings app)) = Fulfilled url.

(** A data URL as [generateLifestyleImage] builds them. *)
Definition data_url (u : string) : Prop :=
  exists d, u = ("data:image/png;base64," ++ d)%string.

Definition result_is_data_url (item : ImageFile) : Prop :=
  forall u, resultUrl item = Some u -> data_url u.

(** An item shown as processing is the item a suspended run waits for. *)
Definition processing_in_flight (app : App) : Prop :=
  forall item,
    In item (images app) -> status item = Status.processing ->
    exists t, In t (tasks app) /\ id (t_img t) = id item.

(** What the page keeps besides [app_ok]: the flag is cleared when no run is
    suspended, the processing items are in flight, the results are data
    URLs. *)
Definition page_ok (app : App) : Prop :=
  (tasks app = [] -> isProcessing app = false)
  /\ processing_in_flight app
  /\ Forall result_is_data_url (images app).



(* ================================================================== *)
(** ** Example data *)
(* ================================================================== *)

Definition mug_png : File := {| name := "mug.png"; type := "image/png" |}.
Definition lamp_jpg : File := {| name := "lamp.jpg"; type := "image/jpeg" |}.
Definition vase_webp : File := {| name := "vase.webp"; type := "image/webp" |}.

Definition picked_A : Picked :=
  {| picked_file := mug_png; random_id := "k2j4x9q0a"; object_url := "blob:mug" |}.
Definition picked_B : Picked :=
  {| picked_file := lamp_jpg; random_id := "z81mcf3te"; object_url := "blob:lamp" |}.
Definition picked_C : Picked :=
  {| picked_file := vase_webp; random_id := "p0o9i8u7y"; object_url := "blob:vase" |}.

Definition text_part : Part :=
  {| inlineData := None; text := Some "Here is your lifestyle photo." |}.

Definition image_part (mime d : string) : Part :=
  {| inlineData := Some {| data := Some d; mimeType := Some mime |};
     text := None |}.

Definition response_of (ps : list Part) : GenerateContentResponse :=
  {| candidates := Some [ {| content := Some {| parts := Some ps |} |} ] |}.

(** A response whose first part is text and whose second part is a JPEG. *)
Definition text_then_image : GenerateContentResponse :=
  response_of [text_part; image_part "image/jpeg" "/9j/4AAQSkZJRg=="].

(** The file is read and the API answers with an image. *)
Definition env_success : ItemEnv :=
  {| reader := onload "data:image/png;base64,iVBORw0KGgo=";
     api := fun _ => api_resolves text_then_image |}.

(** The file is read and the API call fails. *)
Definition env_api_failure : ItemEnv :=
  {| reader := onload "data:image/png;base64,iVBORw0KGgo=";
     api := fun _ => api_rejects "429 Too Many Requests" |}.

(** The file is read and the API answers with text only. *)
Definition env_text_only : ItemEnv :=
  {| reader := onload "data:image/png;base64,iVBORw0KGgo=";
     api := fun _ => api_resolves (response_of [text_part]) |}.

(** The file cannot be read. *)
Definition env_unreadable : ItemEnv :=
  {| reader := onerror; api := fun _ => api_resolves text_then_image |}.

(** The collection after the three files were added. *)
Definition app_ABC : App :=
  run_events initial [FileChange (Some [picked_A; picked_B; picked_C])].

(** The collection after two files were added. *)
Definition app_AB : App :=
  run_events initial [FileChange (Some [picked_A; picked_B])].

(** The first file cannot be read, the others are processed. *)
Definition first_unreadable (i : nat) : ItemEnv :=
  match i with
  | 0 => env_unreadable
  | _ => env_success
  end.

(** The first request fails, the others succeed. *)
Definition first_api_failure (i : nat) : ItemEnv :=
  match i with
  | 0 => env_api_failure
  | _ => env_success
  end.

(** A file is added, its run fails at the API, and it is started again. *)
Definition retry_events : list Event :=
  [ FileChange (Some [picked_A]); StartProcessing; Resume 0 env_api_failure;
    StartProcessing ].

(** ... and the second attempt succeeds. *)
Definition retry_success_events : list Event :=
  retry_events ++ [Resume 0 env_success].

(** A first run completed A; then B was added. *)
Definition app_rerun : App :=
  run_events initial
    [ FileChange (Some [picked_A]); StartProcessing; Resume 0 env_success;
      FileChange (Some [picked_B]) ].

Definition item_A_completed : ImageFile :=
  {| id := "k2j4x9q0a"; file := mug_png; preview := "blob:mug";
     status := Status.completed;
     resultUrl := Some "data:image/png;base64,/9j/4AAQSkZJRg==";
     error := None |}.

(** Two files are added, the run is started, and the request for the first
    fails: the first item is in error while the run waits for the second. *)
Definition mid_run_events : list Event :=
  [ FileChange (Some [picked_A; picked_B]); StartProcessing;
    Resume 0 env_api_failure ].

(** ... and the second succeeds, which ends the run. *)
Definition full_run_events : list Event :=
  mid_run_events ++ [Resume 0 env_success].

(** A stored request, and an upstream that answers every request with the
    status 429 and a JSON error text. *)
Definition proxy_context : Proxy.Context :=
  {| Proxy.request_json := Proxy.json_resolves "{}";
     Proxy.GEMINI_API_KEY := Some "k" |}.

Definition upstream_429 (_ : Proxy.FetchRequest) : Proxy.FetchOutcome :=
  Proxy.fetch_resolves 429 (Proxy.text_resolves "{}").

(* ================================================================== *)
(** ** The image request client *)
(* ================================================================== *)

Lemma Status_eqb_spec (a b : Status.t) : reflect (a = b) (Status.eqb a b).
Proof. destruct a, b; simpl; constructor; congruence. Qed.

Section Scan.

Lemma scan_parts_skip pre ps :
  Forall no_image pre -> scan_parts (pre ++ ps) = scan_parts ps.
Proof.
  induction 1 as [|q pre Hq _ IH]; simpl; [reflexivity|].
  now rewrite Hq.
Qed.

Lemma scan_parts_first pre part blob post :
  Forall no_image pre ->
  inlineData part = Some blob ->
  scan_parts (pre ++ part :: post)
  = ("data:image/png;base64," ++ interpolate (data blob))%string.
Proof.
  intros Hpre Hpart. rewrite scan_parts_skip by assumption.
  simpl. now rewrite Hpart.
Qed.

Lemma scan_parts_none ps : Forall no_image ps -> scan_parts ps = "".
Proof.
  intros H. rewrite <- (app_nil_r ps). now rewrite scan_parts_skip.
Qed.

(** The scan either finds a first image part or sees that there is none. *)
Lemma scan_parts_cases ps :
  Forall no_image ps \/
  exists pre part blob post,
    ps = pre ++ part :: post /\ Forall no_image pre /\
    inlineData part = Some blob.
Proof.
  induction ps as [|q ps IH].
  - left. constructor.
  - destruct (inlineData q) as [blob|] eqn:Hq.
    + right. exists [], q, blob, ps. repeat split; auto.
    + destruct IH as [Hall | (pre & part & blob & post & -> & Hpre & Hpart)].
      * left. constructor; assumption.
      * right. exists (q :: pre), part, blob, post.
        repeat split; auto.
Qed.

Lemma falsy_prefixed s : falsy ("data:image/png;base64," ++ s)%string = false.
Proof. reflexivity. Qed.

Lemma falsy_scan_parts ps : falsy (scan_parts ps) = true <-> Forall no_image ps.
Proof.
  split.
  - intros Hf.
    destruct (scan_parts_cases ps)
      as [Hall | (pre & part & blob & post & -> & Hpre & Hpart)]; [assumption|].
    rewrite (scan_parts_first _ _ _ _ Hpre Hpart), falsy_prefixed in Hf.
    discriminate.
  - intros Hall. now rewrite scan_parts_none.
Qed.

End Scan.



(* ================================================================== *)
(** ** Updates by identifier *)
(* ================================================================== *)

Lemma set_processing_keeps_id : keeps_id set_processing.
Proof. intros item. reflexivity. Qed.

Lemma outcome_update_keeps_id r : keeps_id (outcome_update r).
Proof. intros item. destruct r; reflexivity. Qed.

#[local] Hint Resolve set_processing_keeps_id outcome_update_keeps_id : core.

Lemma write_back_eq img r prev :
  write_back img r prev = update_by_id (id img) (outcome_update r) prev.
Proof. destruct r; reflexivity. Qed.

Lemma update_by_id_absent imgId f prev :
  ~ In imgId (map id prev) -> update_by_id imgId f prev = prev.
Proof.
  unfold update_by_id. induction prev as [|item prev IH]; simpl; intros Hn.
  - reflexivity.
  - destruct (String.eqb_spec (id item) imgId) as [E|E].
    + exfalso. apply Hn. now left.
    + f_equal. apply IH. intros Hin. apply Hn. now right.
Qed.

Lemma update_by_id_ids imgId f prev :
  keeps_id f -> map id (update_by_id imgId f prev) = map id prev.
Proof.
  intros Hf. unfold update_by_id. rewrite map_map. apply map_ext.
  intros item. destruct (String.eqb (id item) imgId); auto.
Qed.

Lemma update_by_id_compose imgId f g prev :
  keeps_id g ->
  update_by_id imgId f (update_by_id imgId g prev)
  = update_by_id imgId (fun item => f (g item)) prev.
Proof.
  intros Hg. unfold update_by_id. rewrite map_map. apply map_ext.
  intros item. destruct (String.eqb (id item) imgId) eqn:E.
  - now rewrite Hg, E.
  - now rewrite E.
Qed.

Lemma in_update_by_id imgId f prev item' :
  In item' (update_by_id imgId f prev) ->
  exists item, In item prev /\
    ((id item = imgId /\ item' = f item) \/ (id item <> imgId /\ item' = item)).
Proof.
  unfold update_by_id. rewrite in_map_iff. intros (item & <- & Hin).
  exists item. split; [assumption|].
  destruct (String.eqb_spec (id item) imgId); auto.
Qed.

Lemma nth_error_update_by_id imgId f prev k :
  nth_error (update_by_id imgId f prev) k
  = option_map (fun item => if String.eqb (id item) imgId then f item else item)
               (nth_error prev k).
Proof. unfold update_by_id. apply nth_error_map. Qed.

Lemma removeImage_absent imgId prev : ~ In imgId (map id (removeImage imgId prev)).
Proof.
  unfold removeImage. rewrite in_map_iff. intros (item & <- & Hin).
  apply filter_In in Hin as [_ Hneq].
  now rewrite String.eqb_refl in Hneq.
Qed.

Lemma iteration_eq img r cur :
  write_back img r (update_by_id (id img) set_processing cur)
  = update_by_id (id img) (iteration_update r) cur.
Proof.
  rewrite write_back_eq, update_by_id_compose by apply set_processing_keeps_id.
  reflexivity.
Qed.

Lemma iteration_update_keeps_id r : keeps_id (iteration_update r).
Proof. intros item. destruct r; reflexivity. Qed.

Lemma iteration_update_terminal r item : terminal (iteration_update r item).
Proof. destruct r; [left | right]; reflexivity. Qed.

(** C9. When the identifier of the item is absent from the collection (the
    item was removed while its request was in flight), the write-back of
    the request's outcome, on success and on failure alike, is the
    identity: it is a total function, it adds no item, and it returns the
    collection it was given. *)
Theorem write_back_absent_noop (prev : list ImageFile) (img : ImageFile) :
  ~ In (id img) (map id prev) ->
  (forall resultUrl,
      update_by_id (id img) (set_completed resultUrl) prev = prev)
  /\ (forall msg, update_by_id (id img) (set_error msg) prev = prev)
  /\ (forall r, write_back img r prev = prev).
Proof.
  intros Habs. repeat split; intros.
  - now apply update_by_id_absent.
  - now apply update_by_id_absent.
  - rewrite write_back_eq. now apply update_by_id_absent.
Qed.

(* ================================================================== *)
(** ** The run to completion *)
(* ================================================================== *)

Section Run.

Variables (prompt : string) (ar : AspectRatio) (env : nat -> ItemEnv).

#[local] Abbreviation loop := (loop_images prompt ar env).
#[local] Abbreviation calls := (loop_io prompt ar env).

Lemma loop_ids todo : forall i cur, map id (loop i todo cur) = map id cur.
Proof.
  induction todo as [|img todo IH]; intros i cur; simpl; [reflexivity|].
  destruct (Status.eqb _ _); [apply IH|].
  rewrite IH, iteration_eq.
  apply update_by_id_ids, iteration_update_keeps_id.
Qed.

Lemma settles_self imgs : settles imgs imgs.
Proof.
  intros item Hin.
  destruct (Status_eqb_spec (status item) Status.completed) as [E|E].
  - left. now left.
  - right. exists item. auto.
Qed.

Lemma loop_terminal todo :
  forall i cur, settles todo cur -> Forall terminal (loop i todo cur).
Proof.
  induction todo as [|img todo IH]; intros i cur Hs; simpl.
  - apply Forall_forall. intros item Hin.
    destruct (Hs item Hin) as [Ht | (s & [] & _)]. exact Ht.
  - destruct (Status_eqb_spec (status img) Status.completed) as [E|E].
    + apply IH. intros item Hin.
      destruct (Hs item Hin) as [Ht | (s & [<- | Hs'] & Hne & Hid)]; auto.
      * contradiction.
      * right. exists s. auto.
    + apply IH. rewrite iteration_eq. intros item' Hin.
      apply in_update_by_id in Hin
        as (item & Hin & [[Hid ->] | [Hid ->]]).
      * left. apply iteration_update_terminal.
      * destruct (Hs item Hin) as [Ht | (s & [<- | Hs'] & Hne & Hid')]; auto.
        -- congruence.
        -- right. exists s. auto.
Qed.

(** *** What a run does to one item *)

Lemma NoDup_id_inj (l : list ImageFile) x y :
  NoDup (map id l) -> In x l -> In y l -> id x = id y -> x = y.
Proof.
  induction l as [|z l IH]; simpl; intros Hnd Hx Hy Hid; [contradiction|].
  inversion Hnd as [|? ? Hnotin Hnd']; subst.
  destruct Hx as [-> | Hx], Hy as [-> | Hy]; auto.
  - exfalso. apply Hnotin. rewrite Hid. now apply in_map.
  - exfalso. apply Hnotin. rewrite <- Hid. now apply in_map.
Qed.

Lemma NoDup_ids_split (pre post : list ImageFile) img :
  NoDup (map id (pre ++ img :: post)) ->
  forall s, In s pre \/ In s post -> id s <> id img.
Proof.
  rewrite map_app. simpl. intros Hnd s Hs Hid.
  apply NoDup_remove_2 in Hnd. apply Hnd. rewrite <- Hid.
  apply in_or_app. destruct Hs; [left | right]; now apply in_map.
Qed.

(** Frame: an item stays as it is while the loop visits items that bear
    other identifiers (or are skipped). *)
Lemma loop_frame todo x k :
  forall i cur,
    (forall s, In s todo -> status s <> Status.completed -> id s <> id x) ->
    nth_error cur k = Some x ->
    nth_error (loop i todo cur) k = Some x.
Proof.
  induction todo as [|img todo IH]; intros i cur Hdiff Hk; simpl; [assumption|].
  destruct (Status_eqb_spec (status img) Status.completed) as [E|E].
  - apply IH; [|assumption]. intros s Hs. apply Hdiff. now right.
  - apply IH.
    + intros s Hs. apply Hdiff. now right.
    + rewrite iteration_eq, nth_error_update_by_id, Hk. simpl.
      destruct (String.eqb_spec (id x) (id img)) as [Hid|Hid]; [|reflexivity].
      exfalso. apply (Hdiff img); auto. now left.
Qed.

Lemma loop_app pre post :
  forall i cur,
    loop i (pre ++ post) cur = loop (i + length pre) post (loop i pre cur).
Proof.
  induction pre as [|img pre IH]; intros i cur; simpl.
  - now rewrite Nat.add_0_r.
  - rewrite <- Nat.add_succ_comm.
    destruct (Status.eqb _ _); apply IH.
Qed.

(** With unique identifiers, the item of index [k], when not already
    completed, ends as its own iteration leaves it: completed with the
    returned URL, or in error with the message of what was thrown. *)
Lemma loop_item_outcome imgs k img :
  NoDup (map id imgs) ->
  nth_error imgs k = Some img ->
  status img <> Status.completed ->
  nth_error (loop 0 imgs imgs) k
  = Some (iteration_update (process_item img (env k) prompt ar) img).
Proof.
  intros Hnd Hk Hst.
  destruct (nth_error_split _ _ Hk) as (pre & post & Himgs & Hlen).
  assert (Hother := NoDup_ids_split pre post img).
  rewrite <- Himgs in Hother. specialize (Hother Hnd).
  rewrite Himgs at 1. rewrite loop_app. simpl. rewrite Hlen.
  destruct (Status_eqb_spec (status img) Status.completed) as [E|_];
    [contradiction|].
  rewrite iteration_eq. apply loop_frame.
  - intros s Hs _. rewrite iteration_update_keeps_id. apply Hother. now right.
  - rewrite nth_error_update_by_id.
    rewrite (loop_frame pre img k 0 imgs); [| |assumption].
    + simpl. now rewrite String.eqb_refl.
    + intros s Hs _. apply Hother. now left.
Qed.

(** With unique identifiers, an item already completed is left as it is. *)
Lemma loop_completed_unchanged imgs k img :
  NoDup (map id imgs) ->
  nth_error imgs k = Some img ->
  status img = Status.completed ->
  nth_error (loop 0 imgs imgs) k = Some img.
Proof.
  intros Hnd Hk Hst. apply loop_frame; [|assumption].
  intros s Hs Hne Hid. apply Hne.
  rewrite (NoDup_id_inj imgs s img Hnd Hs (nth_error_In _ _ Hk) Hid).
  assumption.
Qed.

(** *** The calls of a run *)

Lemma item_io_index i img e ev :
  In ev (item_io i img e prompt ar) -> io_index ev = i.
Proof.
  unfold item_io. destruct (fileToBase64 (reader e)); simpl; intuition (subst; reflexivity).
Qed.

Lemma item_io_generate i img e j b m p a :
  In (call_generateLifestyleImage j b m p a) (item_io i img e prompt ar) ->
  j = i /\ fileToBase64 (reader e) = Fulfilled b
  /\ m = type (file img) /\ p = prompt /\ a = ar.
Proof.
  unfold item_io. destruct (fileToBase64 (reader e)) as [b'|t]; simpl.
  - intros [H | [H | [H | [H | []]]]]; try discriminate.
    injection H as <- <- <- <- <-. auto.
  - intros [H | [H | []]]; discriminate.
Qed.

(** Every call of the log is a call of the iteration of a visited item that
    was not already completed. *)
Lemma in_calls todo :
  forall i ev, In ev (calls i todo) ->
    exists img,
      nth_error todo (io_index ev - i) = Some img /\ i <= io_index ev
      /\ status img <> Status.completed
      /\ In ev (item_io (io_index ev) img (env (io_index ev)) prompt ar).
Proof.
  induction todo as [|img todo IH]; intros i ev Hin; cbn [loop_io] in Hin;
    [contradiction|].
  destruct (Status_eqb_spec (status img) Status.completed) as [E|E].
  - destruct (IH _ _ Hin) as (s & Hs & Hle & Hst & Hev).
    exists s. repeat split; auto; [|lia].
    replace (io_index ev - i) with (S (io_index ev - S i)) by lia. exact Hs.
  - apply in_app_or in Hin as [Hin | Hin].
    + pose proof (item_io_index _ _ _ _ Hin) as Hi. exists img.
      rewrite Hi, Nat.sub_diag. repeat split; auto.
    + destruct (IH _ _ Hin) as (s & Hs & Hle & Hst & Hev).
      exists s. repeat split; auto; [|lia].
      replace (io_index ev - i) with (S (io_index ev - S i)) by lia. exact Hs.
Qed.

Lemma generate_calls_of_item i img e :
  map io_index (filter is_generate_call (item_io i img e prompt ar))
  = match fileToBase64 (reader e) with Fulfilled _ => [i] | Rejected _ => [] end.
Proof. unfold item_io. destruct (fileToBase64 (reader e)); reflexivity. Qed.

(** The submissions are made for the submitted items, by increasing loop
    index. *)
Lemma generate_calls_indices imgs todo :
  forall i,
    (forall j, nth_error todo j = nth_error imgs (i + j)) ->
    map io_index (filter is_generate_call (calls i todo))
    = filter (submitted env imgs) (seq i (length todo)).
Proof.
  induction todo as [|img todo IH]; intros i Hsuffix;
    cbn [loop_io length seq filter]; [reflexivity|].
  assert (Hnext : forall j, nth_error todo j = nth_error imgs (S i + j)).
  { intros j. rewrite Nat.add_succ_comm. apply (Hsuffix (S j)). }
  assert (Hi : nth_error imgs i = Some img).
  { rewrite <- (Nat.add_0_r i). symmetry. apply (Hsuffix 0). }
  unfold submitted at 1. rewrite Hi.
  destruct (Status.eqb (status img) Status.completed); cbn [negb andb].
  - now apply IH.
  - rewrite filter_app, map_app, generate_calls_of_item, (IH _ Hnext).
    destruct (fileToBase64 (reader (env i))); reflexivity.
Qed.

Lemma sequential_item_io i img e rest :
  sequential None (item_io i img e prompt ar ++ rest) = sequential None rest.
Proof.
  unfold item_io. destruct (fileToBase64 (reader e)); simpl;
    now rewrite Nat.eqb_refl.
Qed.

Lemma calls_sequential todo : forall i, sequential None (calls i todo) = true.
Proof.
  induction todo as [|img todo IH]; intros i; cbn [loop_io]; [reflexivity|].
  destruct (Status.eqb _ _); [apply IH|].
  rewrite sequential_item_io. apply IH.
Qed.

End Run.

(** C2. When [startProcessing] has run to its end, the collection holds the
    items it held at the start, in the same order, and the status of each
    of them is completed or error: none is left pending or processing. *)
Theorem startProcessing_all_terminal (env : nat -> ItemEnv) (app : App) :
  let final := images (fst (startProcessing env app)) in
  map id final = map id (images app) /\ Forall terminal final.
Proof.
  unfold startProcessing.
  destruct (images app) as [|img imgs] eqn:Himgs; cbn [fst images].
  - rewrite Himgs. split; [reflexivity | constructor].
  - split.
    + apply loop_ids.
    + apply loop_terminal, settles_self.
Qed.

Lemma distinct_NoDup (l : list string) : distinct l = true -> NoDup l.
Proof.
  induction l as [|x l IH]; simpl; intros H; constructor.
  - apply andb_prop in H as [H _]. intros Hin.
    assert (existsb (String.eqb x) l = true) as E.
    { apply existsb_exists. exists x. split; [assumption | apply String.eqb_refl]. }
    now rewrite E in H.
  - apply IH. now apply andb_prop in H as [_ H].
Qed.

(** With unique identifiers, a run leaves each item that was not already
    completed as its own iteration leaves it, whatever happened to the items
    before it. *)
Lemma startProcessing_item_outcome env app k img :
  NoDup (map id (images app)) ->
  nth_error (images app) k = Some img ->
  status img <> Status.completed ->
  nth_error (images (fst (startProcessing env app))) k
  = Some (iteration_update
            (process_item img (env k) (finalPrompt (settings app))
                          (aspectRatio (settings app))) img).
Proof.
  intros Hnd Hk Hst. unfold startProcessing.
  destruct (images app) as [|x imgs] eqn:Himgs; [destruct k; discriminate|].
  cbn [fst images]. now apply loop_item_outcome.
Qed.

(** C5. With unique identifiers, an item that is already completed when a
    run starts is skipped: after the run it is in its place with all its
    fields as they were, its [resultUrl] among them, and no call, neither
    [fileToBase64] nor [generateLifestyleImage], was made for it. *)
Theorem startProcessing_skips_completed
    (env : nat -> ItemEnv) (app : App) (k : nat) (img : ImageFile) :
  NoDup (map id (images app)) ->
  nth_error (images app) k = Some img ->
  status img = Status.completed ->
  nth_error (images (fst (startProcessing env app))) k = Some img
  /\ (forall ev, In ev (snd (startProcessing env app)) -> io_index ev <> k).
Proof.
  intros Hnd Hk Hst. unfold startProcessing.
  destruct (images app) as [|x imgs] eqn:Himgs; [destruct k; discriminate|].
  cbn [fst snd images]. split.
  - now apply loop_completed_unchanged.
  - intros ev Hin Hev.
    destruct (in_calls _ _ _ _ _ _ Hin) as (s & Hs & _ & Hne & _).
    rewrite Nat.sub_0_r, Hev, Hk in Hs. injection Hs as <-. contradiction.
Qed.

(* ================================================================== *)
(** ** The run among the other handlers *)
(* ================================================================== *)

(** The loop either reaches its end, every item left being completed, or
    stops at its first item that is not. *)
Lemma advance_cases prompt ar todo cur :
  (advance prompt ar todo cur = (cur, None)
   /\ Forall (fun s => status s = Status.completed) todo)
  \/ exists pre img rest,
      todo = pre ++ img :: rest
      /\ Forall (fun s => status s = Status.completed) pre
      /\ status img <> Status.completed
      /\ advance prompt ar todo cur
         = (update_by_id (id img) set_processing cur,
            Some {| t_img := img; t_rest := rest;
                    t_finalPrompt := prompt; t_aspectRatio := ar |}).
Proof.
  induction todo as [|s todo IH]; simpl.
  - left. split; [reflexivity | constructor].
  - destruct (Status_eqb_spec (status s) Status.completed) as [E|E].
    + destruct IH as [[Hadv Hall] | (pre & img & rest & -> & Hpre & Hst & Hadv)].
      * left. split; [assumption | now constructor].
      * right. exists (s :: pre), img, rest. repeat split; auto.
    + right. exists [], s, todo. repeat split; auto.
Qed.

Lemma not_set_none {A} (o : option A) : ~ is_set o -> o = None.
Proof. unfold is_set. destruct o; [intros H; exfalso; apply H; discriminate | reflexivity]. Qed.

Lemma code_invariant_not_completed item :
  code_invariant item -> status item <> Status.completed -> resultUrl item = None.
Proof. intros [_ Hiff] Hst. apply not_set_none. intros Hset. now apply Hst, Hiff. Qed.

Lemma code_invariant_new_image p : code_invariant (new_image p).
Proof.
  split; [now split|]. unfold is_set. simpl. split; [congruence | discriminate].
Qed.

Lemma code_invariant_set_processing item :
  resultUrl item = None -> code_invariant (set_processing item).
Proof.
  intros Hr. split; [discriminate|]. unfold is_set. simpl. rewrite Hr.
  split; [congruence | discriminate].
Qed.

Lemma code_invariant_outcome_update r item :
  resultUrl item = None -> code_invariant (outcome_update r item).
Proof.
  intros Hr. destruct r as [url|t]; (split; [discriminate|]); unfold is_set; simpl.
  - split; [reflexivity | discriminate].
  - rewrite Hr. split; [congruence | discriminate].
Qed.

Lemma removeImage_keeps_unique imgId prev :
  NoDup (map id prev) -> NoDup (map id (removeImage imgId prev)).
Proof.
  unfold removeImage. intros Hnd.
  induction prev as [|item prev IH]; simpl; [constructor|].
  inversion Hnd as [|? ? Hfresh Hnd']; subst.
  destruct (negb (String.eqb (id item) imgId)); simpl; auto.
  constructor; auto.
  rewrite in_map_iff. intros (other & Hid & Hin).
  apply filter_In in Hin as [Hin _].
  apply Hfresh. rewrite <- Hid. now apply in_map.
Qed.

Lemma awaited_self imgs :
  NoDup (map id imgs) -> Forall code_invariant imgs -> awaited imgs imgs.
Proof.
  intros Hnd Hinv s item Hs Hst Hitem Hid.
  rewrite (NoDup_id_inj imgs item s Hnd Hitem Hs Hid).
  apply code_invariant_not_completed; [|assumption].
  now apply (proj1 (Forall_forall _ _) Hinv).
Qed.

Lemma awaited_incl todo todo' imgs :
  incl todo' todo -> awaited todo imgs -> awaited todo' imgs.
Proof. intros Hincl Haw s item Hs. apply Haw. now apply Hincl. Qed.

Lemma awaited_update_processing todo imgs imgId :
  awaited todo imgs -> awaited todo (update_by_id imgId set_processing imgs).
Proof.
  intros Haw s item' Hs Hst Hin Hid.
  apply in_update_by_id in Hin as (item & Hin & [[E ->] | [E ->]]).
  - simpl. now apply (Haw s item).
  - now apply (Haw s item).
Qed.

Lemma Forall_update_by_id (P : ImageFile -> Prop) imgId f imgs :
  Forall P imgs ->
  (forall item, In item imgs -> id item = imgId -> P (f item)) ->
  Forall P (update_by_id imgId f imgs).
Proof.
  intros Hall Hf. apply Forall_forall. intros item' Hin.
  apply in_update_by_id in Hin as (item & Hin & [[E ->] | [E ->]]).
  - now apply Hf.
  - now apply (proj1 (Forall_forall _ _) Hall).
Qed.

(** Going on with the loop keeps the invariant and leaves the run, if it is
    suspended again, in order. *)
Lemma advance_ok prompt ar todo cur :
  NoDup (map id cur) -> Forall code_invariant cur ->
  NoDup (map id todo) -> awaited todo cur ->
  let '(imgs, next) := advance prompt ar todo cur in
  NoDup (map id imgs) /\ Forall code_invariant imgs
  /\ match next with
     | Some t => task_ok imgs t
     | None => True
     end.
Proof.
  intros Hnd Hinv Hndt Haw.
  destruct (advance_cases prompt ar todo cur)
    as [[-> _] | (pre & img & rest & Htodo & _ & Hst & ->)].
  - auto.
  - assert (Hincl : incl (img :: rest) todo).
    { rewrite Htodo. intros x Hx. apply in_or_app. now right. }
    split; [|split].
    + rewrite update_by_id_ids; auto.
    + apply Forall_update_by_id; [assumption|].
      intros item Hin Hid. apply code_invariant_set_processing.
      apply (Haw img item); auto. apply Hincl. now left.
    + split; [|split]; cbn [t_img t_rest].
      * rewrite Htodo, map_app in Hndt. now apply NoDup_app_remove_l in Hndt.
      * assumption.
      * apply awaited_update_processing. now apply (awaited_incl todo).
Qed.

Lemma awaited_write_back t r imgs :
  task_ok imgs t -> awaited (t_rest t) (write_back (t_img t) r imgs).
Proof.
  intros (Hnd & _ & Haw) s item' Hs Hst Hin Hid.
  rewrite write_back_eq in Hin.
  apply in_update_by_id in Hin as (item & Hin & [[E ->] | [E ->]]).
  - exfalso. rewrite outcome_update_keeps_id in Hid.
    simpl in Hnd. inversion Hnd as [|? ? Hnotin _]; subst.
    apply Hnotin. rewrite <- E, Hid. now apply in_map.
  - apply (Haw s item); auto. now right.
Qed.

Lemma write_back_ok t r imgs :
  task_ok imgs t -> Forall code_invariant imgs ->
  Forall code_invariant (write_back (t_img t) r imgs).
Proof.
  intros (_ & Hst & Haw) Hinv. rewrite write_back_eq.
  apply Forall_update_by_id; [assumption|].
  intros item Hin Hid. apply code_invariant_outcome_update.
  apply (Haw (t_img t) item); auto. now left.
Qed.

Lemma startProcessing_begin_ok app :
  app_ok app -> enabled app StartProcessing = true ->
  app_ok (startProcessing_begin app).
Proof.
  intros (Hnd & Hinv & Hidle & Htasks) Hen. simpl in Hen.
  apply andb_prop in Hen as [Hproc _]. apply negb_true_iff in Hproc.
  specialize (Hidle Hproc). unfold startProcessing_begin.
  destruct (images app) as [|x imgs] eqn:Himgs.
  - unfold app_ok. rewrite Himgs. auto.
  - rewrite <- Himgs in *.
    pose proof (advance_ok (finalPrompt (settings app)) (aspectRatio (settings app))
                  (images app) (images app) Hnd Hinv Hnd
                  (awaited_self _ Hnd Hinv)) as Hadv.
    destruct (advance _ _ _ _) as [imgs' [t|]];
      destruct Hadv as (Hnd' & Hinv' & Ht); unfold app_ok; cbn.
    + rewrite Hidle. repeat split; auto; [discriminate|].
      right. exists t. auto.
    + repeat split; auto.
Qed.

Lemma resume_ok k e app :
  app_ok app -> enabled app (Resume k e) = true -> app_ok (resume k e app).
Proof.
  intros (Hnd & Hinv & Hidle & Htasks) Hen. simpl in Hen.
  apply Nat.ltb_lt in Hen. unfold resume.
  destruct Htasks as [Hnil | (t & Ht & Hok)].
  - rewrite Hnil in Hen. simpl in Hen. lia.
  - rewrite Ht in *. simpl in Hen.
    assert (k = 0) as -> by lia. cbn [nth_error].
    set (r := process_item _ _ _ _).
    assert (Hrest : NoDup (map id (t_rest t))).
    { destruct Hok as (Hn & _). simpl in Hn. now inversion Hn. }
    pose proof (advance_ok (t_finalPrompt t) (t_aspectRatio t) (t_rest t)
                  (write_back (t_img t) r (images app))) as Hadv.
    rewrite write_back_eq, update_by_id_ids in Hadv
      by apply outcome_update_keeps_id.
    rewrite <- write_back_eq in Hadv.
    specialize (Hadv Hnd (write_back_ok _ _ _ Hok Hinv) Hrest
                  (awaited_write_back _ _ _ Hok)).
    destruct (advance _ _ _ _) as [imgs' [t'|]];
      destruct Hadv as (Hnd' & Hinv' & Ht'); unfold app_ok; cbn.
    + repeat split; auto.
      * intros Hp. specialize (Hidle Hp). discriminate.
      * right. exists t'. auto.
    + repeat split; auto.
Qed.

Lemma map_id_new_image fs : map id (map new_image fs) = map random_id fs.
Proof. rewrite map_map. reflexivity. Qed.

Lemma awaited_filter todo imgs p :
  awaited todo imgs -> awaited todo (filter p imgs).
Proof.
  intros Haw s item Hs Hst Hin. apply filter_In in Hin as [Hin _].
  now apply (Haw s item).
Qed.

Lemma awaited_added todo imgs fs :
  awaited todo imgs -> awaited todo (imgs ++ map new_image fs).
Proof.
  intros Haw s item Hs Hst Hin Hid.
  apply in_app_or in Hin as [Hin | Hin].
  - now apply (Haw s item).
  - apply in_map_iff in Hin as (p & <- & _). reflexivity.
Qed.

Lemma task_ok_awaited imgs imgs' t :
  task_ok imgs t -> awaited (t_img t :: t_rest t) imgs' -> task_ok imgs' t.
Proof. intros (Hnd & Hst & _) Haw. repeat split; assumption. Qed.

(** Each handler the page lets run keeps the invariant. *)
Lemma handle_ok app ev :
  app_ok app -> enabled app ev = true -> fresh_ids app ev = true ->
  app_ok (handle app ev).
Proof.
  intros Hok Hen Hfresh. destruct ev as [files | imgId | | s | | k e].
  - destruct Hok as (Hnd & Hinv & Hidle & Htasks).
    destruct files as [fs|]; [|repeat split; assumption].
    unfold app_ok; cbn. repeat split; auto.
    + rewrite map_app, map_id_new_image. now apply distinct_NoDup.
    + apply Forall_app. split; [assumption|].
      apply Forall_forall. intros item Hin.
      apply in_map_iff in Hin as (p & <- & _). apply code_invariant_new_image.
    + destruct Htasks as [Hnil | (t & Ht & Htok)]; [now left | right].
      exists t. split; [assumption|].
      apply (task_ok_awaited _ _ _ Htok), awaited_added. apply Htok.
  - destruct Hok as (Hnd & Hinv & Hidle & Htasks).
    unfold app_ok; cbn. repeat split; auto.
    + now apply removeImage_keeps_unique.
    + apply Forall_forall. intros item Hin. apply filter_In in Hin as [Hin _].
      now apply (proj1 (Forall_forall _ _) Hinv).
    + destruct Htasks as [Hnil | (t & Ht & Htok)]; [now left | right].
      exists t. split; [assumption|].
      apply (task_ok_awaited _ _ _ Htok), awaited_filter. apply Htok.
  - destruct Hok as (Hnd & Hinv & Hidle & Htasks).
    simpl in Hen. apply andb_prop in Hen as [_ Hproc].
    apply negb_true_iff in Hproc.
    unfold app_ok; cbn. repeat split; auto; constructor.
  - destruct Hok as (Hnd & Hinv & Hidle & Htasks).
    unfold app_ok; cbn. repeat split; auto.
  - now apply startProcessing_begin_ok.
  - now apply resume_ok.
Qed.

Lemma initial_ok : app_ok initial.
Proof. unfold app_ok; cbn. repeat split; auto; constructor. Qed.

Lemma run_events_ok evs :
  forall app, app_ok app -> admissible app evs = true ->
              app_ok (run_events app evs).
Proof.
  induction evs as [|ev evs IH]; intros app Hok Hadm; simpl; [assumption|].
  simpl in Hadm. apply andb_prop in Hadm as [Hadm Hrest].
  apply andb_prop in Hadm as [Hen Hfresh].
  apply IH; [|assumption]. now apply handle_ok.
Qed.

Lemma process_item_has_message img e prompt ar :
  reader e <> onerror -> has_message (process_item img e prompt ar).
Proof.
  intros Hr. unfold process_item, fileToBase64.
  destruct (reader e) as [result|]; [|contradiction].
  unfold generateLifestyleImage. destruct (api e _); cbv zeta.
  - destruct (falsy _); simpl; [discriminate | exact I].
  - simpl. discriminate.
Qed.

Lemma write_back_error_message img r imgs :
  has_message r -> Forall error_has_message imgs ->
  Forall error_has_message (write_back img r imgs).
Proof.
  intros Hr Hall. rewrite write_back_eq.
  apply Forall_update_by_id; [assumption|].
  intros item _ _. destruct r as [url|t]; simpl; [discriminate|].
  intros _. exact Hr.
Qed.

Lemma advance_error_message prompt ar todo cur :
  Forall error_has_message cur ->
  Forall error_has_message (fst (advance prompt ar todo cur)).
Proof.
  intros Hall.
  destruct (advance_cases prompt ar todo cur)
    as [[-> _] | (pre & img & rest & _ & _ & _ & ->)]; [assumption|].
  cbn [fst]. apply Forall_update_by_id; [assumption|].
  intros item _ _. discriminate.
Qed.

Lemma handle_error_message app ev :
  file_read ev -> Forall error_has_message (images app) ->
  Forall error_has_message (images (handle app ev)).
Proof.
  intros Hread Hall. destruct ev as [files | imgId | | s | | k e]; cbn.
  - destruct files as [fs|]; [|assumption]. simpl.
    apply Forall_app. split; [assumption|].
    apply Forall_forall. intros item Hin.
    apply in_map_iff in Hin as (p & <- & _). discriminate.
  - apply Forall_forall. intros item Hin. apply filter_In in Hin as [Hin _].
    now apply (proj1 (Forall_forall _ _) Hall).
  - constructor.
  - assumption.
  - unfold startProcessing_begin.
    destruct (images app) as [|x imgs] eqn:Himgs; [now rewrite Himgs|].
    rewrite <- Himgs in *.
    pose proof (advance_error_message (finalPrompt (settings app))
                  (aspectRatio (settings app)) (images app) _ Hall) as Hadv.
    destruct (advance _ _ _ _) as [imgs' [t|]]; exact Hadv.
  - unfold resume. destruct (nth_error (tasks app) k) as [t|]; [|assumption].
    pose proof (advance_error_message (t_finalPrompt t) (t_aspectRatio t)
                  (t_rest t) _
                  (write_back_error_message (t_img t) _ _
                     (process_item_has_message (t_img t) e (t_finalPrompt t)
                        (t_aspectRatio t) Hread) Hall)) as Hadv.
    destruct (advance _ _ _ _) as [imgs' [t'|]]; exact Hadv.
Qed.

Lemma run_events_error_message evs :
  forall app, Forall file_read evs -> Forall error_has_message (images app) ->
              Forall error_has_message (images (run_events app evs)).
Proof.
  induction evs as [|ev evs IH]; intros app Hread Hall; simpl; [assumption|].
  inversion Hread; subst. apply IH; [assumption|].
  now apply handle_error_message.
Qed.

(** C1, amended. In every state the page can reach, added files bearing new
    identifiers: identifiers are unique; a pending item has neither
    [resultUrl] nor [error]; [resultUrl] is set exactly on the completed
    items. The [error] of an earlier failure is kept when the item is
    processed again, so a processing or a completed item may carry one. As
    long as no file failed to be read, an item in error carries a message. *)
Theorem reachable_items_invariant (evs : list Event) :
  admissible initial evs = true ->
  let app := run_events initial evs in
  NoDup (map id (images app))
  /\ Forall code_invariant (images app)
  /\ (Forall file_read evs -> Forall error_has_message (images app)).
Proof.
  intros Hadm app.
  destruct (run_events_ok evs initial initial_ok Hadm) as (Hnd & Hinv & _).
  split; [exact Hnd | split; [exact Hinv|]].
  intros Hread. apply run_events_error_message; [assumption | constructor].
Qed.

(* ================================================================== *)
(** ** The coroutine and the function agree *)
(* ================================================================== *)

Section Agreement.

Variables (prompt : string) (ar : AspectRatio) (env : nat -> ItemEnv).

Lemma loop_images_completed pre :
  Forall (fun s => status s = Status.completed) pre ->
  forall i cur, loop_images prompt ar env i pre cur = cur.
Proof.
  induction 1 as [|s pre Hs _ IH]; intros i cur; simpl; [reflexivity|].
  rewrite Hs. apply IH.
Qed.

Lemma pending_envs_completed pre :
  Forall (fun s => status s = Status.completed) pre ->
  forall i, pending_envs env i pre = [].
Proof.
  induction 1 as [|s pre Hs _ IH]; intros i; simpl; [reflexivity|].
  rewrite Hs. apply IH.
Qed.

Lemma pending_envs_app pre post :
  forall i, pending_envs env i (pre ++ post)
            = pending_envs env i pre ++ pending_envs env (i + length pre) post.
Proof.
  induction pre as [|s pre IH]; intros i; simpl.
  - now rewrite Nat.add_0_r.
  - rewrite <- Nat.add_succ_comm.
    destruct (Status.eqb _ _); simpl; now rewrite IH.
Qed.

Lemma run_events_agree evs :
  forall es, resumptions evs = Some es ->
  forall todo i cur app,
    images app = fst (advance prompt ar todo cur) ->
    tasks app = suspended (snd (advance prompt ar todo cur)) ->
    es = pending_envs env i todo ->
    images (run_events app evs) = loop_images prompt ar env i todo cur.
Proof.
  induction evs as [|ev evs IH]; intros es Hres todo i cur app Himgs Htasks Hes.
  - simpl in Hres. injection Hres as <-. simpl. rewrite Himgs.
    destruct (advance_cases prompt ar todo cur)
      as [[-> Hall] | (pre & img & rest & -> & Hpre & Hst & _)].
    + now rewrite loop_images_completed.
    + rewrite pending_envs_app, (pending_envs_completed pre Hpre) in Hes.
      simpl in Hes.
      destruct (Status_eqb_spec (status img) Status.completed);
        [contradiction | discriminate].
  - destruct ev as [files | imgId | | s | | k e]; try discriminate.
    + (* the settings are edited *)
      simpl in Hres. simpl. now apply (IH es).
    + (* the calls settle *)
      destruct k as [|k]; [|discriminate]. simpl in Hres.
      destruct (resumptions evs) as [es'|]; [|discriminate].
      injection Hres as <-.
      destruct (advance_cases prompt ar todo cur)
        as [[_ Hall] | (pre & img & rest & -> & Hpre & Hst & Hadv)].
      * now rewrite (pending_envs_completed todo Hall) in Hes.
      * rewrite Hadv in Himgs, Htasks. cbn [fst snd suspended] in Himgs, Htasks.
        rewrite pending_envs_app, (pending_envs_completed pre Hpre) in Hes.
        simpl in Hes.
        destruct (Status_eqb_spec (status img) Status.completed) as [E|_];
          [contradiction|].
        injection Hes as He Hes'.
        rewrite loop_app, (loop_images_completed pre Hpre).
        cbn [loop_images].
        destruct (Status_eqb_spec (status img) Status.completed) as [E|_];
          [contradiction|].
        cbn [run_events fold_left handle]. fold (run_events (resume 0 e app) evs).
        clear Hadv.
        apply (IH es' eq_refl); [| |exact Hes'];
          unfold resume; rewrite Htasks, Himgs, He; cbn;
          destruct (advance _ _ _ _) as [imgs' [t'|]]; reflexivity.
Qed.

End Agreement.

(** A run that is resumed until its end, the settings being edited in
    between, leaves the collection as the function [startProcessing] does
    with the settings of the start. *)
Lemma settings_read_once env app evs :
  tasks app = [] ->
  resumptions evs = Some (pending_envs env 0 (images app)) ->
  images (run_events (startProcessing_begin app) evs)
  = images (fst (startProcessing env app)).
Proof.
  intros Htasks Hres. unfold startProcessing.
  destruct (images app) as [|x imgs] eqn:Himgs.
  - cbn [fst]. rewrite Himgs.
    apply (run_events_agree (finalPrompt (settings app))
             (aspectRatio (settings app)) env evs _ Hres [] 0 []);
      [| |reflexivity]; unfold startProcessing_begin; rewrite Himgs; auto.
  - rewrite <- Himgs in *. cbn [fst images].
    apply (run_events_agree _ _ _ evs _ Hres); [| |reflexivity];
      unfold startProcessing_begin; rewrite Himgs, <- Himgs;
      destruct (advance _ _ _ _) as [imgs' [t|]]; cbn;
      rewrite ?Htasks; reflexivity.
Qed.

(** With unique identifiers, a failure stays with its item: the item ends
    in error with the [message] of what was thrown, whatever comes before
    and after it in the batch. *)
Lemma failure_is_item_scoped env app k img t :
  NoDup (map id (images app)) ->
  nth_error (images app) k = Some img ->
  status img <> Status.completed ->
  process_item img (env k) (finalPrompt (settings app))
               (aspectRatio (settings app)) = Rejected t ->
  exists item,
    nth_error (images (fst (startProcessing env app))) k = Some item
    /\ status item = Status.error /\ error item = message t
    /\ id item = id img /\ resultUrl item = resultUrl img.
Proof.
  intros Hnd Hk Hst Hrej.
  rewrite (startProcessing_item_outcome env app k img Hnd Hk Hst), Hrej.
  eexists. split; [reflexivity|]. repeat split.
Qed.

(** With unique identifiers, a success completes its item, whatever
    happened to the items before it. *)
Lemma success_completes_item env app k img url :
  NoDup (map id (images app)) ->
  nth_error (images app) k = Some img ->
  status img <> Status.completed ->
  process_item img (env k) (finalPrompt (settings app))
               (aspectRatio (settings app)) = Fulfilled url ->
  exists item,
    nth_error (images (fst (startProcessing env app))) k = Some item
    /\ status item = Status.completed /\ resultUrl item = Some url
    /\ id item = id img /\ error item = error img.
Proof.
  intros Hnd Hk Hst Hok.
  rewrite (startProcessing_item_outcome env app k img Hnd Hk Hst), Hok.
  eexists. split; [reflexivity|]. repeat split.
Qed.

(* ================================================================== *)
(** ** The statements on the example data *)
(* ================================================================== *)

(** C1, refuted. After a failed attempt, starting again leaves the item
    processing with the error of the first attempt still set: the invariant
    "a processing item has neither field" does not hold in a state the page
    reaches. *)
Lemma retry_breaks_spec_invariant : ~ spec_invariant_always.
Proof.
  intros Hinv. specialize (Hinv retry_events eq_refl).
  inversion Hinv as [|item rest Hitem _]. compute in Hitem.
  destruct Hitem as [_ Herr]. discriminate.
Qed.

(** After the second attempt succeeded, the item is completed with both
    fields set. *)
Lemma retry_success_has_both_fields :
  map (fun item => (status item, resultUrl item, error item))
      (images (run_events initial retry_success_events))
  = [ (Status.completed, Some "data:image/png;base64,/9j/4AAQSkZJRg==",
       Some "429 Too Many Requests") ].
Proof. reflexivity. Qed.

Lemma reachable_items_invariant_witness :
  admissible initial retry_success_events = true
  /\ NoDup (map id (images (run_events initial retry_success_events)))
  /\ Forall code_invariant (images (run_events initial retry_success_events))
  /\ (Forall file_read retry_success_events ->
      Forall error_has_message (images (run_events initial retry_success_events))).
Proof.
  split; [reflexivity|].
  apply (reachable_items_invariant retry_success_events). reflexivity.
Defined.

(** The file reader's data URL is cut at its comma. *)
Lemma fileToBase64_data_url :
  fileToBase64 (onload "data:image/png;base64,iVBORw0KGgo=")
  = Fulfilled (Some "iVBORw0KGgo=")
  /\ fileToBase64 onerror = Rejected ReadErrorEvent.
Proof. split; reflexivity. Qed.

(** A response with text only is the "no image" error; a failure of the
    call is rethrown with its own message. *)
Lemma generateLifestyleImage_failures :
  process_item (new_image picked_A) env_text_only "x" ar_1_1
  = Rejected NoImageError
  /\ process_item (new_image picked_A) env_api_failure "x" ar_1_1
     = Rejected (ApiError "429 Too Many Requests").
Proof. split; reflexivity. Qed.

(** With an empty custom prompt the preset's text is sent; a custom prompt
    is sent whatever the preset. *)
Lemma finalPrompt_examples :
  finalPrompt {| preset := preset_value SCANDINAVIAN; customPrompt := "";
                 aspectRatio := ar_1_1 |}
  = preset_value SCANDINAVIAN
  /\ finalPrompt {| preset := preset_value SCANDINAVIAN;
                    customPrompt := "Neon cyberpunk alley";
                    aspectRatio := ar_1_1 |}
     = "Neon cyberpunk alley"
  /\ map text (contents (build_request (Some "iVBORw0KGgo=") "image/png"
                            "Neon cyberpunk alley" ar_1_1))
     = [ None;
         Some "Create a professional lifestyle photo of this product. Environment description: Neon cyberpunk alley. Ensure the product is perfectly integrated with realistic lighting and shadows." ].
Proof. repeat split. Qed.

(** Given [A, B, C] added in that order and all read, the three submissions
    are made for A, then B, then C, also when the request for A fails. *)
Lemma calls_for_A_B_C :
  map io_index
      (filter is_generate_call (snd (startProcessing first_api_failure app_ABC)))
  = [0; 1; 2]
  /\ map id (images app_ABC) = ["k2j4x9q0a"; "z81mcf3te"; "p0o9i8u7y"].
Proof. split; reflexivity. Qed.

(** C4, at the batch [A, B] where the file of A cannot be read and B
    succeeds: the batch is not aborted, A ends in error and B completed,
    but A carries no message: its [error] is [undefined], the rejection of
    [fileToBase64] being the reader's event, which has no [message]. *)
Theorem unreadable_file_error_without_message :
  let final := images (fst (startProcessing first_unreadable app_AB)) in
  map status final = [Status.error; Status.completed]
  /\ map error final = [None; None]
  /\ map resultUrl final = [None; Some "data:image/png;base64,/9j/4AAQSkZJRg=="].
Proof. repeat split. Qed.

(** For [A(fails), B(succeeds)] with a failure of the request, A ends in error
    with the message of the failure and B completed. *)
Lemma api_failure_then_success :
  let final := images (fst (startProcessing first_api_failure app_AB)) in
  map status final = [Status.error; Status.completed]
  /\ map error final = [Some "429 Too Many Requests"; None].
Proof. repeat split. Qed.

Lemma startProcessing_skips_completed_witness :
  NoDup (map id (images app_rerun))
  /\ nth_error (images app_rerun) 0 = Some item_A_completed
  /\ status item_A_completed = Status.completed
  /\ nth_error (images (fst (startProcessing (fun _ => env_api_failure) app_rerun))) 0
     = Some item_A_completed
  /\ (forall ev,
        In ev (snd (startProcessing (fun _ => env_api_failure) app_rerun)) ->
        io_index ev <> 0).
Proof.
  assert (Hnd : NoDup (map id (images app_rerun)))
    by (apply distinct_NoDup; reflexivity).
  split; [exact Hnd|]. split; [reflexivity|]. split; [reflexivity|].
  apply (startProcessing_skips_completed
           (fun _ => env_api_failure) app_rerun 0 item_A_completed Hnd);
    reflexivity.
Defined.



Lemma write_back_absent_noop_witness :
  let prev := removeImage (id item_A_completed) (images app_rerun) in
  ~ In (id item_A_completed) (map id prev)
  /\ (forall resultUrl,
         update_by_id (id item_A_completed) (set_completed resultUrl) prev = prev)
  /\ (forall msg,
         update_by_id (id item_A_completed) (set_error msg) prev = prev)
  /\ (forall r, write_back item_A_completed r prev = prev).
Proof.
  intros prev.
  assert (Habs : ~ In (id item_A_completed) (map id prev))
    by apply removeImage_absent.
  split; [exact Habs|].
  apply (write_back_absent_noop prev item_A_completed Habs).
Defined.

(* ================================================================== *)
(** ** The encoder *)
(* ================================================================== *)

Lemma split_comma_split_on s : split_comma s = split_on ","%char s.
Proof. induction s as [|c s IH]; simpl; [reflexivity|]. now rewrite IH. Qed.

Lemma split_on_not_nil sep s : split_on sep s <> [].
Proof.
  destruct s as [|c s]; simpl; [discriminate|].
  destruct (Ascii.eqb c sep); [discriminate|].
  destruct (split_on sep s); discriminate.
Qed.

Lemma split_on_absent sep s : has_char sep s = false -> split_on sep s = [s].
Proof.
  induction s as [|c s IH]; simpl; [reflexivity|]. intros H.
  apply orb_false_iff in H as [Hc Hs]. rewrite Hc, (IH Hs). reflexivity.
Qed.

Lemma split_on_present sep s :
  has_char sep s = true -> 2 <= length (split_on sep s).
Proof.
  induction s as [|c s IH]; simpl; [discriminate|]. intros H.
  destruct (Ascii.eqb c sep) eqn:Hc; simpl.
  - pose proof (split_on_not_nil sep s).
    destruct (split_on sep s); [contradiction | simpl; lia].
  - specialize (IH H). destruct (split_on sep s); simpl in *; lia.
Qed.

(** The piece before the first separator, and the split of what follows. *)
Lemma split_on_first sep header rest :
  has_char sep header = false ->
  split_on sep (header ++ String sep rest) = header :: split_on sep rest.
Proof.
  induction header as [|c header IH]; simpl; intros H.
  - now rewrite Ascii.eqb_refl.
  - apply orb_false_iff in H as [Hc Hh]. rewrite Hc, (IH Hh). reflexivity.
Qed.

(** X1. For a data URL, a header without comma, a comma and a payload
    without comma (as Base64 text is), [fileToBase64] resolves with the
    payload, whole and unchanged. *)
Theorem fileToBase64_payload (header payload : string) :
  has_char ","%char header = false ->
  has_char ","%char payload = false ->
  fileToBase64 (onload (header ++ "," ++ payload)) = Fulfilled (Some payload).
Proof.
  intros Hh Hp. unfold fileToBase64. rewrite split_comma_split_on.
  change ("," ++ payload)%string with (String ","%char payload).
  rewrite (split_on_first _ _ _ Hh), (split_on_absent _ _ Hp). reflexivity.
Qed.

Lemma fileToBase64_payload_witness :
  fileToBase64 (onload "data:image/png;base64,iVBORw0KGgo=")
  = Fulfilled (Some "iVBORw0KGgo=").
Proof.
  apply (fileToBase64_payload "data:image/png;base64" "iVBORw0KGgo=");
    reflexivity.
Defined.

(** X2. On load, [fileToBase64] never rejects, and it resolves with
    [undefined] exactly when the reader's result holds no comma; a payload
    that holds a comma is cut at it. *)
Theorem fileToBase64_undefined_iff (result : string) :
  (fileToBase64 (onload result) = Fulfilled None
   <-> has_char ","%char result = false)
  /\ (forall header payload tail,
        has_char ","%char header = false ->
        has_char ","%char payload = false ->
        fileToBase64 (onload (header ++ "," ++ payload ++ "," ++ tail))
        = Fulfilled (Some payload)).
Proof.
  split.
  - unfold fileToBase64. rewrite split_comma_split_on. split.
    + intros H.
      destruct (has_char ","%char result) eqn:Hc; [|reflexivity].
      apply split_on_present in Hc.
      destruct (split_on ","%char result) as [|x [|y l]]; simpl in *;
        [lia | lia | discriminate].
    + intros H. now rewrite (split_on_absent _ _ H).
  - intros header payload tail Hh Hp.
    unfold fileToBase64. rewrite split_comma_split_on.
    change ("," ++ payload ++ "," ++ tail)%string
      with (String ","%char (payload ++ String ","%char tail)).
    rewrite (split_on_first _ _ _ Hh), (split_on_first _ _ _ Hp). reflexivity.
Qed.

(* ================================================================== *)
(** ** The request and the response *)
(* ================================================================== *)

Lemma response_parts_of response : parts_of response (response_parts response).
Proof.
  destruct response as [[[|[[[[ps|]]|]] cs]|]]; cbn; constructor.
Qed.

Lemma parts_of_unique response ps :
  parts_of response ps -> ps = response_parts response.
Proof. destruct 1; reflexivity. Qed.

(** X3. [generateLifestyleImage] only reads the first candidate of the
    response: it rejects with the "no image" error exactly when the call
    resolved and the response has no candidate, or its first candidate has
    no content, no parts or no part with inline data, whatever the other
    candidates hold. *)
Theorem generateLifestyleImage_no_image_response
    api base64Data mimeType prompt aspectRatio :
  generateLifestyleImage api base64Data mimeType prompt aspectRatio
  = Rejected NoImageError
  <->
  exists response ps,
    api (build_request base64Data mimeType prompt aspectRatio)
    = api_resolves response
    /\ parts_of response ps /\ Forall no_image ps.
Proof.
  unfold generateLifestyleImage.
  destruct (api _) as [response | msg].
  - cbv zeta. destruct (falsy _) eqn:Hf.
    + split; [|reflexivity]. intros _.
      exists response, (response_parts response).
      split; [reflexivity|]. split; [apply response_parts_of|].
      now apply falsy_scan_parts.
    + split; [discriminate|]. intros (r & ps & Hr & Hps & Hall).
      injection Hr as <-. apply parts_of_unique in Hps as ->.
      apply falsy_scan_parts in Hall. congruence.
  - split; [discriminate|]. intros (r & ps & Hr & _). discriminate.
Qed.

Lemma append_cancel_l (pre s t : string) :
  (pre ++ s)%string = (pre ++ t)%string -> s = t.
Proof.
  induction pre as [|c pre IH]; simpl; intros H; [assumption|].
  injection H as H. now apply IH.
Qed.

Lemma length_append (s t : string) :
  String.length (s ++ t) = String.length s + String.length t.
Proof. induction s as [|c s IH]; simpl; [reflexivity|]. now rewrite IH. Qed.

Lemma append_cancel_r (suf s t : string) :
  (s ++ suf)%string = (t ++ suf)%string -> s = t.
Proof.
  revert t. induction s as [|c s IH]; intros [|d t] H; simpl in H.
  - reflexivity.
  - apply (f_equal String.length) in H. simpl in H.
    rewrite length_append in H. lia.
  - apply (f_equal String.length) in H. simpl in H.
    rewrite length_append in H. lia.
  - injection H as -> H. f_equal. now apply IH.
Qed.

Lemma request_text_inj p q : request_text p = request_text q -> p = q.
Proof.
  unfold request_text. intros H.
  apply append_cancel_l in H. now apply append_cancel_r in H.
Qed.

(** X4. The request built for a call determines the four arguments of the
    call: two calls that differ in the encoded image, the media type, the
    prompt or the aspect ratio never send the same request. *)
Theorem build_request_inj b m p a b' m' p' a' :
  build_request b m p a = build_request b' m' p' a'
  <-> b = b' /\ m = m' /\ p = p' /\ a = a'.
Proof.
  split.
  - unfold build_request. intros H.
    injection H as Hb Hm Hp Ha.
    apply append_cancel_r in Hp. auto.
  - intros (-> & -> & -> & ->). reflexivity.
Qed.

(* ================================================================== *)
(** ** Adding and removing items *)
(* ================================================================== *)

Lemma removeImage_absent_id imgId prev :
  ~ In imgId (map id prev) -> removeImage imgId prev = prev.
Proof.
  unfold removeImage. intros Habs.
  induction prev as [|x prev IH]; simpl; [reflexivity|].
  destruct (String.eqb_spec (id x) imgId) as [E|E]; simpl.
  - exfalso. apply Habs. left. exact E.
  - f_equal. apply IH. intros Hin. apply Habs. now right.
Qed.

(** X5. [removeImage] drops every item that bears the identifier,
    duplicates included, and nothing else; removing twice is removing
    once, removals commute, and removing an identifier that is absent
    changes nothing. *)
Theorem removeImage_exact (imgId : string) (prev : list ImageFile) :
  (forall item, In item (removeImage imgId prev)
                <-> In item prev /\ id item <> imgId)
  /\ removeImage imgId (removeImage imgId prev) = removeImage imgId prev
  /\ (forall other,
        removeImage imgId (removeImage other prev)
        = removeImage other (removeImage imgId prev))
  /\ (removeImage imgId prev = prev <-> ~ In imgId (map id prev)).
Proof.
  unfold removeImage. repeat split.
  - now apply filter_In in H.
  - apply filter_In in H as [_ H]. apply negb_true_iff in H.
    now apply String.eqb_neq in H.
  - intros [Hin Hne]. apply filter_In. split; [assumption|].
    apply negb_true_iff. now apply String.eqb_neq.
  - induction prev as [|x prev IH]; simpl; [reflexivity|].
    destruct (negb (String.eqb (id x) imgId)) eqn:E; simpl;
      [rewrite E; f_equal|]; exact IH.
  - intros other. induction prev as [|x prev IH]; simpl; [reflexivity|].
    destruct (negb (String.eqb (id x) other)) eqn:E1;
      destruct (negb (String.eqb (id x) imgId)) eqn:E2; simpl;
      rewrite ?E1, ?E2; first [exact IH | f_equal; exact IH].
  - intros Heq Hin. rewrite <- Heq in Hin.
    apply in_map_iff in Hin as (item & Hid & Hin).
    apply filter_In in Hin as [_ Hne]. rewrite Hid, String.eqb_refl in Hne.
    discriminate.
  - apply removeImage_absent_id.
Qed.

(** X6. Adding files whose identifiers are not in the collection and
    removing one of them by its identifier leaves the collection as if the
    other files alone had been added; in particular adding one file and
    removing it gives the collection back. *)
Theorem add_then_remove (prev : list ImageFile) (before after : list Picked)
    (p : Picked) :
  ~ In (random_id p) (map id prev) ->
  ~ In (random_id p) (map random_id (before ++ after)) ->
  removeImage (random_id p)
    (handleFileChange (Some (before ++ p :: after)) prev)
  = handleFileChange (Some (before ++ after)) prev.
Proof.
  intros Hprev Hothers. unfold handleFileChange, removeImage.
  rewrite filter_app.
  fold (removeImage (random_id p) prev).
  rewrite (removeImage_absent_id _ _ Hprev).
  f_equal. rewrite !map_app, filter_app. simpl.
  rewrite String.eqb_refl. simpl.
  rewrite map_app, in_app_iff in Hothers.
  assert (Hkeep : forall fs, ~ In (random_id p) (map random_id fs) ->
            filter (fun img => negb (String.eqb (id img) (random_id p)))
                   (map new_image fs) = map new_image fs).
  { induction fs as [|q fs IH]; simpl; intros Hn; [reflexivity|].
    destruct (String.eqb_spec (random_id q) (random_id p)) as [E|E]; simpl.
    - exfalso. apply Hn. now left.
    - f_equal. apply IH. intros Hin. apply Hn. now right. }
  rewrite !Hkeep by tauto. reflexivity.
Qed.

Lemma add_then_remove_witness :
  removeImage (random_id picked_B)
    (handleFileChange (Some ([picked_A] ++ picked_B :: [picked_C])) (images initial))
  = handleFileChange (Some ([picked_A] ++ [picked_C])) (images initial).
Proof.
  apply (add_then_remove (images initial) [picked_A] [picked_C] picked_B).
  - simpl. tauto.
  - simpl. intros [H | [H | []]]; discriminate.
Defined.

(* ================================================================== *)
(** ** Statistics *)
(* ================================================================== *)

Lemma count_terminal imgs :
  Forall terminal imgs ->
  filter (has_status Status.processing) imgs = []
  /\ filter (has_status Status.pending) imgs = [].
Proof.
  induction 1 as [|x imgs Hx _ [IH1 IH2]]; simpl; [split; reflexivity|].
  unfold has_status in *.
  destruct Hx as [E | E]; rewrite E; simpl; split; assumption.
Qed.

Lemma count_by_status imgs :
  length imgs
  = length (filter (has_status Status.completed) imgs)
    + length (filter (has_status Status.processing) imgs)
    + length (filter (has_status Status.error) imgs)
    + length (filter (has_status Status.pending) imgs).
Proof.
  induction imgs as [|x imgs IH]; simpl; [reflexivity|].
  unfold has_status in *. destruct (status x); simpl; lia.
Qed.

(** X7. The four statuses partition the collection: the three counts of
    [stats] and the number of pending items add up to [total]. *)
Theorem stats_partition (imgs : list ImageFile) :
  Stats.total (stats imgs)
  = Stats.completed (stats imgs) + Stats.processing (stats imgs)
    + Stats.error (stats imgs)
    + length (filter (has_status Status.pending) imgs).
Proof. apply count_by_status. Qed.

(** X8. After a run, the statistics show no item processing, and every item
    of the collection, which has kept its size, is counted as completed or
    as error. *)
Theorem stats_after_run (env : nat -> ItemEnv) (app : App) :
  let after := stats (images (fst (startProcessing env app))) in
  Stats.total after = Stats.total (stats (images app))
  /\ Stats.processing after = 0
  /\ Stats.completed after + Stats.error after = Stats.total after.
Proof.
  intros after.
  assert (Hterm : Forall terminal (images (fst (startProcessing env app)))).
  { unfold startProcessing. destruct (images app) as [|x imgs] eqn:E; cbn [fst snd images].
    - rewrite E. constructor.
    - apply loop_terminal, settles_self. }
  assert (Hlen : length (images (fst (startProcessing env app)))
                 = length (images app)).
  { unfold startProcessing. destruct (images app) as [|x imgs] eqn:E; cbn [fst snd images].
    - now rewrite E.
    - rewrite <- (length_map id), loop_ids, length_map. reflexivity. }
  pose proof (count_by_status (images (fst (startProcessing env app)))) as Hpart.
  destruct (count_terminal _ Hterm) as [Hproc Hpend].
  rewrite Hpend, Hproc in Hpart. simpl in Hpart.
  unfold after, stats;
    cbn [Stats.total Stats.completed Stats.processing Stats.error].
  rewrite Hproc. split; [exact Hlen | split; [reflexivity | lia]].
Qed.

(* ================================================================== *)
(** ** Runs one after the other *)
(* ================================================================== *)

Section Success.

Variables (prompt : string) (ar : AspectRatio) (env : nat -> ItemEnv).

Lemma loop_all_completed todo :
  forall i cur,
    (forall j img, nth_error todo j = Some img ->
                   status img <> Status.completed ->
                   exists url, process_item img (env (i + j)) prompt ar
                               = Fulfilled url) ->
    (forall item, In item cur ->
       status item = Status.completed \/
       exists s, In s todo /\ status s <> Status.completed /\ id s = id item) ->
    Forall (fun item => status item = Status.completed)
           (loop_images prompt ar env i todo cur).
Proof.
  induction todo as [|img todo IH]; intros i cur Hok Hs; simpl.
  - apply Forall_forall. intros item Hin.
    destruct (Hs item Hin) as [Ht | (s & [] & _)]. exact Ht.
  - assert (Hok' : forall j s, nth_error todo j = Some s ->
                     status s <> Status.completed ->
                     exists url, process_item s (env (S i + j)) prompt ar
                                 = Fulfilled url).
    { intros j s Hj Hst. rewrite Nat.add_succ_comm. now apply (Hok (S j)). }
    destruct (Status_eqb_spec (status img) Status.completed) as [E|E].
    + apply IH; [exact Hok'|]. intros item Hin.
      destruct (Hs item Hin) as [Ht | (s & [<- | Hs'] & Hne & Hid)]; auto.
      * contradiction.
      * right. exists s. auto.
    + apply IH; [exact Hok'|]. rewrite iteration_eq. intros item' Hin.
      destruct (Hok 0 img eq_refl E) as (url & Hurl).
      rewrite Nat.add_0_r in Hurl. rewrite Hurl in Hin.
      apply in_update_by_id in Hin
        as (item & Hin & [[Hid ->] | [Hid ->]]).
      * left. reflexivity.
      * destruct (Hs item Hin) as [Ht | (s & [<- | Hs'] & Hne & Hid')]; auto.
        -- congruence.
        -- right. exists s. auto.
Qed.

Lemma loop_io_completed todo :
  Forall (fun s => status s = Status.completed) todo ->
  forall i, loop_io prompt ar env i todo = [].
Proof.
  induction 1 as [|s todo Hs _ IH]; intros i; simpl; [reflexivity|].
  rewrite Hs. apply IH.
Qed.

End Success.

(** X9. When every item a run has to process succeeds, the run leaves every
    item completed, and a run started again on that collection makes no
    call and leaves the collection as it is, whatever the outside would
    answer. *)
Theorem rerun_after_success (env : nat -> ItemEnv) (app : App) :
  all_succeed env app ->
  let app1 := fst (startProcessing env app) in
  Forall (fun item => status item = Status.completed) (images app1)
  /\ (forall env',
        images (fst (startProcessing env' app1)) = images app1
        /\ snd (startProcessing env' app1) = []).
Proof.
  intros Hok app1.
  assert (Hall : Forall (fun item => status item = Status.completed)
                        (images app1)).
  { unfold app1, startProcessing.
    destruct (images app) as [|x imgs] eqn:E; cbn [fst snd images].
    - rewrite E. constructor.
    - rewrite <- E in *. apply loop_all_completed.
      + intros j img Hj Hst. now apply Hok.
      + intros item Hin.
        destruct (Status_eqb_spec (status item) Status.completed) as [Hc|Hc];
          [now left | right]. exists item. auto. }
  split; [exact Hall|]. intros env'. unfold startProcessing.
  destruct (images app1) as [|x imgs] eqn:E; cbn [fst snd images].
  - split; [exact E | reflexivity].
  - rewrite <- E in *. split.
    + now apply loop_images_completed.
    + now apply loop_io_completed.
Qed.

Lemma rerun_after_success_witness :
  all_succeed (fun _ => env_success) app_AB
  /\ Forall (fun item => status item = Status.completed)
            (images (fst (startProcessing (fun _ => env_success) app_AB)))
  /\ (forall env',
        images (fst (startProcessing env'
                       (fst (startProcessing (fun _ => env_success) app_AB))))
        = images (fst (startProcessing (fun _ => env_success) app_AB))
        /\ snd (startProcessing env'
                  (fst (startProcessing (fun _ => env_success) app_AB))) = []).
Proof.
  assert (Hok : all_succeed (fun _ => env_success) app_AB).
  { intros i img _ _. eexists. reflexivity. }
  split; [exact Hok|].
  apply (rerun_after_success (fun _ => env_success) app_AB Hok).
Defined.

(* ================================================================== *)
(** ** What a run never touches *)
(* ================================================================== *)

Lemma update_by_id_identities imgId f prev :
  (forall item, identity_of (f item) = identity_of item) ->
  map identity_of (update_by_id imgId f prev) = map identity_of prev.
Proof.
  intros Hf. unfold update_by_id. rewrite map_map. apply map_ext.
  intros item. destruct (String.eqb (id item) imgId); auto.
Qed.

Lemma write_back_identities img r prev :
  map identity_of (write_back img r prev) = map identity_of prev.
Proof.
  rewrite write_back_eq. apply update_by_id_identities.
  intros item. destruct r; reflexivity.
Qed.

Lemma advance_identities prompt ar todo cur :
  map identity_of (fst (advance prompt ar todo cur)) = map identity_of cur.
Proof.
  destruct (advance_cases prompt ar todo cur)
    as [[-> _] | (pre & img & rest & _ & _ & _ & ->)]; [reflexivity|].
  cbn [fst]. now apply update_by_id_identities.
Qed.

Lemma loop_identities prompt ar env todo :
  forall i cur,
    map identity_of (loop_images prompt ar env i todo cur) = map identity_of cur.
Proof.
  induction todo as [|img todo IH]; intros i cur; simpl; [reflexivity|].
  destruct (Status.eqb _ _); [apply IH|].
  rewrite IH, write_back_identities. now apply update_by_id_identities.
Qed.

(** X10. A run adds, drops and reorders no item and never changes the
    identifier, the file or the preview of an item: the run as a whole, its
    start and each of its resumptions leave the list of these triples as it
    was (and so does an edit of the settings). *)
Theorem run_keeps_identities (env : nat -> ItemEnv) (app : App) :
  map identity_of (images (fst (startProcessing env app)))
  = map identity_of (images app)
  /\ map identity_of (images (startProcessing_begin app))
     = map identity_of (images app)
  /\ (forall k e, map identity_of (images (resume k e app))
                  = map identity_of (images app))
  /\ (forall s, images (handle app (SetSettings s)) = images app).
Proof.
  split; [|split; [|split]].
  - unfold startProcessing. destruct (images app) as [|x imgs] eqn:E; cbn [fst snd images].
    + now rewrite E.
    + apply loop_identities.
  - unfold startProcessing_begin. destruct (images app) as [|x imgs] eqn:E.
    + now rewrite E.
    + rewrite <- E.
      pose proof (advance_identities (finalPrompt (settings app))
                    (aspectRatio (settings app)) (images app) (images app)) as H.
      destruct (advance _ _ _ _) as [imgs' [t|]]; exact H.
  - intros k e. unfold resume.
    destruct (nth_error (tasks app) k) as [t|]; [|reflexivity].
    pose proof (advance_identities (t_finalPrompt t) (t_aspectRatio t) (t_rest t)
                  (write_back (t_img t)
                     (process_item (t_img t) e (t_finalPrompt t) (t_aspectRatio t))
                     (images app))) as H.
    rewrite write_back_identities in H.
    destruct (advance _ _ _ _) as [imgs' [t'|]]; exact H.
  - reflexivity.
Qed.

(* ================================================================== *)
(** ** More of what the page keeps *)
(* ================================================================== *)

Lemma process_item_data_url img e prompt ar url :
  process_item img e prompt ar = Fulfilled url -> data_url url.
Proof.
  unfold process_item. destruct (fileToBase64 (reader e)) as [b|t]; [|discriminate].
  unfold generateLifestyleImage. destruct (api e _) as [response|msg]; [|discriminate].
  cbv zeta. destruct (falsy _) eqn:Hf; [discriminate|].
  intros H. injection H as <-.
  destruct (scan_parts_cases (response_parts response))
    as [Hall | (pre & part & blob & post & Hps & Hpre & Hpart)].
  - apply falsy_scan_parts in Hall. congruence.
  - rewrite Hps, (scan_parts_first _ _ _ _ Hpre Hpart). now eexists.
Qed.

Lemma write_back_data_urls img e prompt ar imgs :
  Forall result_is_data_url imgs ->
  Forall result_is_data_url
         (write_back img (process_item img e prompt ar) imgs).
Proof.
  intros Hall. rewrite write_back_eq.
  apply Forall_update_by_id; [assumption|].
  intros item Hin _. pose proof (proj1 (Forall_forall _ _) Hall item Hin) as Hitem.
  destruct (process_item img e prompt ar) as [url|t] eqn:Hr; simpl.
  - intros u Hu. simpl in Hu. injection Hu as <-.
    now apply (process_item_data_url _ _ _ _ _ Hr).
  - exact Hitem.
Qed.

Lemma advance_data_urls prompt ar todo cur :
  Forall result_is_data_url cur ->
  Forall result_is_data_url (fst (advance prompt ar todo cur)).
Proof.
  intros Hall.
  destruct (advance_cases prompt ar todo cur)
    as [[-> _] | (pre & img & rest & _ & _ & _ & ->)]; [assumption|].
  cbn [fst]. apply Forall_update_by_id; [assumption|].
  intros item Hin _. exact (proj1 (Forall_forall _ _) Hall item Hin).
Qed.

Lemma replace_nth_not_nil {A} k (x : A) l : replace_nth k x l <> [].
Proof. unfold replace_nth. destruct (firstn k l); discriminate. Qed.

(** After the loop went on, the processing items are those of the item it
    stopped at, provided none was processing before. *)
Lemma advance_processing prompt ar todo cur :
  (forall item, In item cur -> status item <> Status.processing) ->
  let '(imgs, next) := advance prompt ar todo cur in
  forall item, In item imgs -> status item = Status.processing ->
    exists t, next = Some t /\ id (t_img t) = id item.
Proof.
  intros Hnone.
  destruct (advance_cases prompt ar todo cur)
    as [[-> _] | (pre & img & rest & _ & _ & _ & ->)].
  - intros item Hin Hst. now apply Hnone in Hin.
  - intros item' Hin Hst.
    apply in_update_by_id in Hin as (item & Hin & [[Hid ->] | [Hid ->]]).
    + eexists. split; [reflexivity|]. simpl. now symmetry.
    + now apply Hnone in Hin.
Qed.

Lemma handle_page_ok app ev :
  app_ok app -> page_ok app ->
  enabled app ev = true -> page_ok (handle app ev).
Proof.
  intros (Hnd & Hinv & Hidle & Htasks) (Hflag & Hproc & Hurls) Hen.
  destruct ev as [files | imgId | | s | | k e].
  - (* files are added *)
    destruct files as [fs|]; [|repeat split; assumption].
    unfold page_ok, processing_in_flight; cbn. repeat split; auto.
    + intros item Hin Hst. apply in_app_or in Hin as [Hin | Hin]; auto.
      apply in_map_iff in Hin as (p & <- & _). discriminate.
    + apply Forall_app. split; [assumption|].
      apply Forall_forall. intros item Hin.
      apply in_map_iff in Hin as (p & <- & _). intros u Hu. discriminate.
  - (* an item is removed *)
    unfold page_ok, processing_in_flight; cbn. repeat split; auto.
    + intros item Hin. apply filter_In in Hin as [Hin _]. auto.
    + apply Forall_forall. intros item Hin. apply filter_In in Hin as [Hin _].
      exact (proj1 (Forall_forall _ _) Hurls item Hin).
  - (* the collection is cleared *)
    unfold page_ok, processing_in_flight; cbn. repeat split; auto.
    intros item [].
  - (* the settings are edited *)
    repeat split; assumption.
  - (* a run starts *)
    simpl in Hen. apply andb_prop in Hen as [Hp _]. apply negb_true_iff in Hp.
    specialize (Hidle Hp).
    assert (Hnone : forall item, In item (images app) ->
                                 status item <> Status.processing).
    { intros item Hin Hst. destruct (Hproc item Hin Hst) as (t & Ht & _).
      rewrite Hidle in Ht. destruct Ht. }
    assert (Hpage : page_ok app) by (repeat split; assumption).
    cbn [handle]. unfold startProcessing_begin.
    destruct (images app) as [|x imgs] eqn:Himgs; [exact Hpage|].
    rewrite <- Himgs in *. clear Hpage.
    pose proof (advance_processing (finalPrompt (settings app))
                  (aspectRatio (settings app)) (images app) _ Hnone) as Hadv.
    pose proof (advance_data_urls (finalPrompt (settings app))
                  (aspectRatio (settings app)) (images app) _ Hurls) as Hu.
    destruct (advance _ _ _ _) as [imgs' [t|]];
      unfold page_ok, processing_in_flight; cbn; rewrite Hidle;
      (split; [|split; [|exact Hu]]).
    + discriminate.
    + intros item Hin Hst. destruct (Hadv item Hin Hst) as (t' & Ht' & Hid).
      injection Ht' as <-. exists t. split; [now left | assumption].
    + reflexivity.
    + intros item Hin Hst. destruct (Hadv item Hin Hst) as (t' & Ht' & _).
      discriminate.
  - (* the calls of the run settle *)
    simpl in Hen. apply Nat.ltb_lt in Hen. cbn [handle]. unfold resume.
    destruct Htasks as [Hnil | (t & Ht & Hok)];
      [rewrite Hnil in Hen; simpl in Hen; lia|].
    rewrite Ht in *. simpl in Hen. assert (k = 0) as -> by lia.
    cbn [nth_error].
    set (r := process_item _ _ _ _).
    assert (Hnone : forall item,
               In item (write_back (t_img t) r (images app)) ->
               status item <> Status.processing).
    { intros item' Hin Hst. rewrite write_back_eq in Hin.
      apply in_update_by_id in Hin as (item & Hin & [[Hid ->] | [Hid ->]]).
      - destruct r; discriminate.
      - destruct (Hproc item Hin Hst) as (t0 & Ht0 & Hid0).
        rewrite Ht in Ht0. destruct Ht0 as [<- | []]. congruence. }
    pose proof (advance_processing (t_finalPrompt t) (t_aspectRatio t)
                  (t_rest t) _ Hnone) as Hadv.
    pose proof (advance_data_urls (t_finalPrompt t) (t_aspectRatio t) (t_rest t) _
                  (write_back_data_urls (t_img t) e (t_finalPrompt t)
                     (t_aspectRatio t) _ Hurls)) as Hu.
    fold r in Hu.
    destruct (advance _ _ _ _) as [imgs' [t'|]];
      unfold page_ok, processing_in_flight; cbn;
      (split; [|split; [|exact Hu]]).
    + discriminate.
    + intros item Hin Hst. destruct (Hadv item Hin Hst) as (t0 & Ht0 & Hid).
      injection Ht0 as <-. exists t'. split; [now left | assumption].
    + reflexivity.
    + intros item Hin Hst. destruct (Hadv item Hin Hst) as (t0 & Ht0 & _).
      discriminate.
Qed.

Lemma initial_page_ok : page_ok initial.
Proof.
  unfold page_ok, processing_in_flight; cbn. repeat split; auto.
  intros item [].
Qed.

Lemma run_events_page_ok evs :
  forall app, app_ok app -> page_ok app -> admissible app evs = true ->
              app_ok (run_events app evs) /\ page_ok (run_events app evs).
Proof.
  induction evs as [|ev evs IH]; intros app Hok Hpage Hadm; simpl; [auto|].
  simpl in Hadm. apply andb_prop in Hadm as [Hadm Hrest].
  apply andb_prop in Hadm as [Hen Hfresh].
  apply IH; [now apply handle_ok | now apply handle_page_ok | assumption].
Qed.

Lemma reachable_ok evs :
  admissible initial evs = true ->
  app_ok (run_events initial evs) /\ page_ok (run_events initial evs).
Proof. apply run_events_page_ok; [apply initial_ok | apply initial_page_ok]. Qed.

(** X11. In every state the page can reach, at most one run is suspended,
    [isProcessing] is set exactly while one is, and a run can only be
    started, and the collection cleared, when none is. *)
Theorem one_run_at_a_time (evs : list Event) :
  admissible initial evs = true ->
  let app := run_events initial evs in
  (isProcessing app = true <-> tasks app <> [])
  /\ length (tasks app) <= 1
  /\ (enabled app StartProcessing = true -> tasks app = [])
  /\ (enabled app ClearAll = true -> tasks app = []).
Proof.
  intros Hadm app.
  destruct (reachable_ok evs Hadm)
    as ((_ & _ & Hidle & Htasks) & (Hflag & _ & _)).
  fold app in Hidle, Htasks, Hflag.
  split; [|split; [|split]].
  - split.
    + intros Hp Hnil. rewrite (Hflag Hnil) in Hp. discriminate.
    + intros Hne. destruct (isProcessing app) eqn:Hp; [reflexivity|].
      exfalso. apply Hne, Hidle. reflexivity.
  - destruct Htasks as [-> | (t & -> & _)]; simpl; lia.
  - simpl. intros Hen. apply andb_prop in Hen as [Hp _].
    apply negb_true_iff in Hp. now apply Hidle.
  - simpl. intros Hen. apply andb_prop in Hen as [_ Hp].
    apply negb_true_iff in Hp. now apply Hidle.
Qed.

Lemma one_run_at_a_time_witness :
  admissible initial mid_run_events = true
  /\ (isProcessing (run_events initial mid_run_events) = true
      <-> tasks (run_events initial mid_run_events) <> [])
  /\ length (tasks (run_events initial mid_run_events)) <= 1
  /\ (enabled (run_events initial mid_run_events) StartProcessing = true ->
      tasks (run_events initial mid_run_events) = [])
  /\ (enabled (run_events initial mid_run_events) ClearAll = true ->
      tasks (run_events initial mid_run_events) = []).
Proof.
  split; [reflexivity|].
  apply (one_run_at_a_time mid_run_events). reflexivity.
Defined.

Lemma at_most_one_with_id (P : ImageFile -> bool) (imgId : string) imgs :
  NoDup (map id imgs) ->
  (forall item, In item imgs -> P item = true -> id item = imgId) ->
  length (filter P imgs) <= 1.
Proof.
  induction imgs as [|x imgs IH]; simpl; intros Hnd Hid; [lia|].
  inversion Hnd as [|? ? Hfresh Hnd']; subst.
  destruct (P x) eqn:Hx.
  - assert (Hnil : filter P imgs = []).
    { destruct (filter P imgs) as [|y l] eqn:Hf; [reflexivity|]. exfalso.
      assert (Hy : In y (filter P imgs)) by (rewrite Hf; now left).
      apply filter_In in Hy as [Hy HPy]. apply Hfresh.
      rewrite (Hid x (or_introl eq_refl) Hx), <- (Hid y (or_intror Hy) HPy).
      now apply in_map. }
    rewrite Hnil. simpl. lia.
  - apply IH; auto.
Qed.

(** X12. In every state the page can reach, at most one item is shown as
    processing, and none when no run is in progress. *)
Theorem at_most_one_processing (evs : list Event) :
  admissible initial evs = true ->
  let app := run_events initial evs in
  Stats.processing (stats (images app)) <= 1
  /\ (isProcessing app = false -> Stats.processing (stats (images app)) = 0).
Proof.
  intros Hadm app.
  destruct (reachable_ok evs Hadm)
    as ((Hnd & _ & Hidle & Htasks) & (_ & Hproc & _)).
  fold app in Hnd, Hidle, Htasks, Hproc.
  assert (Hnone : tasks app = [] ->
            filter (has_status Status.processing) (images app) = []).
  { intros Hnil.
    destruct (filter _ (images app)) as [|y l] eqn:Hf; [reflexivity|]. exfalso.
    assert (Hy : In y (filter (has_status Status.processing) (images app)))
      by (rewrite Hf; now left).
    apply filter_In in Hy as [Hy Hst].
    apply (reflect_iff _ _ (Status_eqb_spec _ _)) in Hst.
    destruct (Hproc y Hy Hst) as (t & Ht & _). rewrite Hnil in Ht. destruct Ht. }
  unfold stats; cbn [Stats.processing]. split.
  - destruct Htasks as [Hnil | (t & Ht & _)].
    + rewrite (Hnone Hnil). simpl. lia.
    + apply (at_most_one_with_id _ (id (t_img t))); [assumption|].
      intros item Hin Hst.
      apply (reflect_iff _ _ (Status_eqb_spec _ _)) in Hst.
      destruct (Hproc item Hin Hst) as (t0 & Ht0 & Hid).
      rewrite Ht in Ht0. destruct Ht0 as [<- | []]. now symmetry.
  - intros Hp. now rewrite (Hnone (Hidle Hp)).
Qed.

Lemma at_most_one_processing_witness :
  admissible initial mid_run_events = true
  /\ Stats.processing (stats (images (run_events initial mid_run_events))) <= 1
  /\ (isProcessing (run_events initial mid_run_events) = false ->
      Stats.processing (stats (images (run_events initial mid_run_events))) = 0).
Proof.
  split; [reflexivity|].
  apply (at_most_one_processing mid_run_events). reflexivity.
Defined.

(** X13. In every state the page can reach, the page offers no way to
    remove an item that is being processed: when the removal of an
    identifier is enabled, no item with that identifier is processing. *)
Theorem processing_item_not_removable (evs : list Event) (imgId : string) :
  admissible initial evs = true ->
  enabled (run_events initial evs) (RemoveImage imgId) = true ->
  forall item,
    In item (images (run_events initial evs)) -> id item = imgId ->
    status item <> Status.processing.
Proof.
  intros Hadm Hen item Hin Hid.
  destruct (reachable_ok evs Hadm) as ((Hnd & _) & _).
  simpl in Hen. apply existsb_exists in Hen as (x & Hx & Hcond).
  apply andb_prop in Hcond as [Hidx Hcond].
  apply String.eqb_eq in Hidx.
  assert (item = x) as ->
    by (apply (NoDup_id_inj _ _ _ Hnd Hin Hx); congruence).
  apply orb_prop in Hcond as [Hcond | Hcond].
  - apply andb_prop in Hcond as [_ Hst]. apply negb_true_iff in Hst.
    intros E. rewrite E in Hst. discriminate.
  - apply (reflect_iff _ _ (Status_eqb_spec _ _)) in Hcond.
    rewrite Hcond. discriminate.
Qed.

Lemma processing_item_not_removable_witness :
  admissible initial mid_run_events = true
  /\ enabled (run_events initial mid_run_events) (RemoveImage "k2j4x9q0a") = true
  /\ (forall item,
        In item (images (run_events initial mid_run_events)) ->
        id item = "k2j4x9q0a" -> status item <> Status.processing).
Proof.
  split; [reflexivity|]. split; [reflexivity|].
  apply (processing_item_not_removable mid_run_events "k2j4x9q0a"); reflexivity.
Defined.

(* ================================================================== *)
(** ** Downloads *)
(* ================================================================== *)

Lemma truthy_data_url u : data_url u -> truthy (Some u) = true.
Proof. intros (d & ->). reflexivity. Qed.

(** X14. In every state the page can reach, [downloadAll] clicks one link
    for each completed item, in the order of the collection, as many as the
    "Download N Results" button announces, and each link points to the data
    URL that is the item's result. *)
Theorem downloadAll_completed (evs : list Event) :
  admissible initial evs = true ->
  let imgs := images (run_events initial evs) in
  length (downloadAll imgs) = Stats.completed (stats imgs)
  /\ map (fun d => Some (href d)) (downloadAll imgs)
     = map resultUrl (filter (has_status Status.completed) imgs)
  /\ map download (downloadAll imgs)
     = map (fun img => bulk_name (file img))
           (filter (has_status Status.completed) imgs)
  /\ Forall (fun d => data_url (href d)) (downloadAll imgs).
Proof.
  intros Hadm imgs.
  destruct (reachable_ok evs Hadm) as ((_ & Hinv & _) & (_ & _ & Hurls)).
  fold imgs in Hinv, Hurls.
  assert (Hres : forall img, In img imgs ->
            has_status Status.completed img = true ->
            exists u, resultUrl img = Some u /\ data_url u).
  { intros img Hin Hst.
    apply (reflect_iff _ _ (Status_eqb_spec _ _)) in Hst.
    pose proof (proj1 (Forall_forall _ _) Hinv img Hin) as [_ Hiff].
    apply Hiff in Hst. unfold is_set in Hst.
    destruct (resultUrl img) as [u|] eqn:Hu; [|contradiction].
    exists u. split; [reflexivity|].
    now apply (proj1 (Forall_forall _ _) Hurls img Hin). }
  assert (Hfilter :
            filter (fun img => has_status Status.completed img
                               && truthy (resultUrl img)) imgs
            = filter (has_status Status.completed) imgs).
  { apply filter_ext_in. intros img Hin.
    destruct (has_status Status.completed img) eqn:Hst; [|reflexivity].
    destruct (Hres img Hin Hst) as (u & -> & Hu).
    now rewrite (truthy_data_url u Hu). }
  unfold downloadAll. rewrite Hfilter.
  split; [|split; [|split]].
  - now rewrite length_map.
  - rewrite map_map. apply map_ext_in. intros img Hin.
    apply filter_In in Hin as [Hin Hst].
    destruct (Hres img Hin Hst) as (u & -> & _). reflexivity.
  - rewrite map_map. reflexivity.
  - apply Forall_forall. intros d Hd.
    apply in_map_iff in Hd as (img & <- & Hin).
    apply filter_In in Hin as [Hin Hst].
    destruct (Hres img Hin Hst) as (u & -> & Hu). exact Hu.
Qed.

Lemma downloadAll_completed_witness :
  admissible initial full_run_events = true
  /\ length (downloadAll (images (run_events initial full_run_events)))
     = Stats.completed (stats (images (run_events initial full_run_events)))
  /\ map (fun d => Some (href d))
         (downloadAll (images (run_events initial full_run_events)))
     = map resultUrl (filter (has_status Status.completed)
                             (images (run_events initial full_run_events)))
  /\ map download (downloadAll (images (run_events initial full_run_events)))
     = map (fun img => bulk_name (file img))
           (filter (has_status Status.completed)
                   (images (run_events initial full_run_events)))
  /\ Forall (fun d => data_url (href d))
            (downloadAll (images (run_events initial full_run_events))).
Proof.
  split; [reflexivity|].
  apply (downloadAll_completed full_run_events). reflexivity.
Defined.

(** The first piece of a split is the longest prefix without separator. *)
Lemma split_on_head sep s :
  exists stem rest,
    nth_error (split_on sep s) 0 = Some stem
    /\ s = (stem ++ rest)%string
    /\ has_char sep stem = false
    /\ (rest = EmptyString \/ exists r, rest = String sep r).
Proof.
  induction s as [|c s (stem & rest & Hhd & Hs & Hstem & Hrest)]; simpl.
  - exists EmptyString, EmptyString. auto.
  - destruct (Ascii.eqb_spec c sep) as [-> | Hc].
    + exists EmptyString, (String sep s). repeat split; eauto.
    + destruct (split_on sep s) as [|h t]; [discriminate|].
      injection Hhd as ->.
      exists (String c stem), rest. simpl. repeat split; auto.
      * now rewrite Hs.
      * rewrite Hstem, orb_false_r. now apply Ascii.eqb_neq.
Qed.

(** X15. The name [downloadAll] gives a download is "lifestyle-", the file
    name up to its first dot (the whole name when it has none), and ".png":
    everything from the first dot on is dropped, whatever the file's type. *)
Theorem bulk_name_stem (f : File) :
  exists stem rest,
    bulk_name f = ("lifestyle-" ++ stem ++ ".png")%string
    /\ name f = (stem ++ rest)%string
    /\ has_char "."%char stem = false
    /\ (rest = EmptyString \/ exists r, rest = String "."%char r).
Proof.
  destruct (split_on_head "."%char (name f))
    as (stem & rest & Hhd & Hs & Hstem & Hrest).
  exists stem, rest. unfold bulk_name. rewrite Hhd. auto.
Qed.

(* ================================================================== *)
(** ** The proxy handler *)
(* ================================================================== *)

(** X16. When the upstream answers and its body is read, the proxy answers
    200 with that body and a JSON content type, whatever the status of the
    upstream answer: an upstream error status is not passed on. *)
Theorem onRequestPost_ignores_upstream_status
    (fetch : Proxy.FetchRequest -> Proxy.FetchOutcome)
    (context : Proxy.Context) (stringified data : string)
    (upstream_status : nat) :
  Proxy.request_json context = Proxy.json_resolves stringified ->
  fetch (Proxy.upstream_request context stringified)
  = Proxy.fetch_resolves upstream_status (Proxy.text_resolves data) ->
  Proxy.onRequestPost fetch context
  = ({| Proxy.body := Proxy.upstream_text data;
        Proxy.status := 200;
        Proxy.headers := [("Content-Type", "application/json")] |},
     [Proxy.upstream_request context stringified]).
Proof.
  intros Hjson Hfetch. unfold Proxy.onRequestPost.
  rewrite Hjson. cbv zeta. rewrite Hfetch. reflexivity.
Qed.

Lemma onRequestPost_ignores_upstream_status_witness :
  Proxy.onRequestPost upstream_429 proxy_context
  = ({| Proxy.body := Proxy.upstream_text "{}";
        Proxy.status := 200;
        Proxy.headers := [("Content-Type", "application/json")] |},
     [Proxy.upstream_request proxy_context "{}"]).
Proof.
  apply (onRequestPost_ignores_upstream_status upstream_429 proxy_context
           "{}" "{}" 429); reflexivity.
Defined.


(* ================================================================== *)
(** ** The reads of a run *)
(* ================================================================== *)



(* ================================================================== *)
(** ** The execution of the program *)
(* ================================================================== *)

Lemma with_images_same app : with_images (images app) app = app.
Proof. destruct app; reflexivity. Qed.

Lemma interpret_bind {A B} env (m : Run A) (f : A -> Run B) :
  forall app,
    interpret env (bind m f) app
    = (fst (interpret env (f (fst (fst (interpret env m app))))
                      (snd (fst (interpret env m app)))),
       snd (interpret env m app)
       ++ snd (interpret env (f (fst (fst (interpret env m app))))
                         (snd (fst (interpret env m app))))).
Proof.
  induction m as [a | u k IH | b k IH | i file k IH | p k IH
                  | i request k IH | p k IH]; intros app; cbn [bind interpret].
  - simpl. now destruct (interpret env (f a) app) as [[b app'] t].
  - apply IH.
  - apply IH.
  - unfold logged. rewrite IH.
    destruct (interpret env (k _) app) as [[a1 app1] t1]; simpl.
    now destruct (interpret env (f a1) app1) as [[b2 app2] t2].
  - unfold logged. rewrite IH.
    destruct (interpret env (k _) app) as [[a1 app1] t1]; simpl.
    now destruct (interpret env (f a1) app1) as [[b2 app2] t2].
  - unfold logged. rewrite IH.
    destruct (interpret env (k _) app) as [[a1 app1] t1]; simpl.
    now destruct (interpret env (f a1) app1) as [[b2 app2] t2].
  - unfold logged. rewrite IH.
    destruct (interpret env (k _) app) as [[a1 app1] t1]; simpl.
    now destruct (interpret env (f a1) app1) as [[b2 app2] t2].
Qed.

(** Once the request has settled, the rest of [generateLifestyleImage] is
    the function on the API's answer to that request. *)
Lemma generateLifestyleImage_settled api b m p a :
  generateLifestyleImage (fun _ => api (build_request b m p a)) b m p a
  = generateLifestyleImage api b m p a.
Proof. reflexivity. Qed.

(** The [try] block as a program: it settles as [process_item] says and
    makes the calls of [item_io]. *)
Lemma interpret_try_block env prompt ar i img app :
  interpret env
    (base64 <- await_fileToBase64 i (file img) ;;
     match base64 with
     | Rejected t => Return (Rejected t)
     | Fulfilled b => await_generateLifestyleImage i b (type (file img)) prompt ar
     end) app
  = (process_item img (env i) prompt ar, app,
     map effect_of_call (item_io i img (env i) prompt ar)).
Proof.
  unfold process_item, item_io. cbn [await_fileToBase64 bind interpret logged
    read_index read_file fst snd].
  destruct (fileToBase64 (reader (env i))) as [b|t]; cbn; reflexivity.
Qed.

(** The loop as a program: its execution writes the state [loop_images]
    computes and makes the calls of [loop_io]. *)
Lemma interpret_loop env prompt ar todo :
  forall i app,
    interpret env (loop_run prompt ar i todo) app
    = (tt, with_images (loop_images prompt ar env i todo (images app)) app,
       map effect_of_call (loop_io prompt ar env i todo)).
Proof.
  induction todo as [|img todo IH]; intros i app; cbn [loop_run loop_images loop_io].
  - cbn. now rewrite with_images_same.
  - destruct (Status.eqb (status img) Status.completed); [apply IH|].
    cbn [setImages bind interpret].
    rewrite interpret_bind, interpret_try_block. cbn [fst snd].
    cbn [bind interpret]. rewrite IH. cbn [images]. rewrite map_app.
    reflexivity.
Qed.

(** The execution of [startProcessing] ends in the state, and makes the
    calls, that [startProcessing] as a function gives. *)
Lemma execute_startProcessing env app :
  execute env app
  = (tt, fst (startProcessing env app),
     map effect_of_call (snd (startProcessing env app))).
Proof.
  unfold execute, startProcessing_run, startProcessing.
  destruct (images app) as [|x imgs] eqn:Himgs; [reflexivity|].
  cbn [setIsProcessing bind interpret fst snd].
  rewrite interpret_bind, interpret_loop. cbn [fst snd interpret with_images
    images settings isProcessing tasks].
  rewrite Himgs, app_nil_r. reflexivity.
Qed.

Lemma one_at_a_time_calls open io :
  one_at_a_time open (map effect_of_call io) = sequential open io.
Proof.
  revert open. induction io as [|ev io IH]; intros open; [reflexivity|].
  destruct ev; cbn [map effect_of_call one_at_a_time sequential];
    destruct open; rewrite ?IH; reflexivity.
Qed.

Lemma requests_of_calls io :
  map effect_index (filter is_request (map effect_of_call io))
  = map io_index (filter is_generate_call io).
Proof.
  induction io as [|ev io IH]; [reflexivity|].
  destruct ev; cbn; now rewrite ?IH.
Qed.


(** A request of the trace is the request of a call of the log. *)
Lemma request_of_call i request io :
  In (request_started i request) (map effect_of_call io) ->
  exists b m p a,
    In (call_generateLifestyleImage i b m p a) io
    /\ request = build_request b m p a.
Proof.
  rewrite in_map_iff. intros (ev & Hev & Hin).
  destruct ev; try discriminate. injection Hev as <- <-. eauto 6.
Qed.

(** What the calls of a run are made with. *)
Lemma startProcessing_call_arguments env app i b m p a :
  In (call_generateLifestyleImage i b m p a) (snd (startProcessing env app)) ->
  exists img,
    nth_error (images app) i = Some img
    /\ fileToBase64 (reader (env i)) = Fulfilled b
    /\ m = type (file img)
    /\ p = finalPrompt (settings app)
    /\ a = aspectRatio (settings app).
Proof.
  unfold startProcessing.
  destruct (images app) as [|x imgs] eqn:Himgs; cbn [snd]; [intros []|].
  intros Hin.
  destruct (in_calls _ _ _ _ _ _ Hin) as (img & Himg & _ & _ & Hev).
  cbn [io_index] in Himg, Hev. rewrite Nat.sub_0_r in Himg.
  apply item_io_generate in Hev as (_ & Hb & Hm & Hp & Ha).
  exists img. auto.
Qed.

(** C3. The execution of [startProcessing] ends in the state the function
    [startProcessing] gives, and on its way it sends its requests one
    after the other and in the order of the batch: a request is sent for
    each item that is submitted (not already completed, file read), by
    increasing position in the collection as it was when the run started,
    each with the encoded data and the file type of its own item, and
    nothing is started while a read or a request is pending. *)
Theorem startProcessing_calls_in_order (env : nat -> ItemEnv) (app : App) :
  let final := snd (fst (execute env app)) in
  let trace := snd (execute env app) in
  final = fst (startProcessing env app)
  /\ map effect_index (filter is_request trace)
     = filter (submitted env (images app)) (seq 0 (length (images app)))
  /\ one_at_a_time None trace = true
  /\ (forall i request,
        In (request_started i request) trace ->
        exists img b,
          nth_error (images app) i = Some img
          /\ fileToBase64 (reader (env i)) = Fulfilled b
          /\ nth_error (contents request) 0
             = Some {| inlineData :=
                         Some {| data := b; mimeType := Some (type (file img)) |};
                       text := None |}).
Proof.
  rewrite execute_startProcessing. cbn [fst snd].
  split; [reflexivity|]. split; [|split].
  - rewrite requests_of_calls. unfold startProcessing.
    destruct (images app) as [|x imgs] eqn:Himgs; cbn [snd]; [reflexivity|].
    now apply generate_calls_indices.
  - rewrite one_at_a_time_calls. unfold startProcessing.
    destruct (images app) as [|x imgs] eqn:Himgs; cbn [snd]; [reflexivity|].
    apply calls_sequential.
  - intros i request Hin.
    apply request_of_call in Hin as (b & m & p & a & Hin & ->).
    apply startProcessing_call_arguments in Hin
      as (img & Himg & Hb & -> & _ & _).
    exists img, b. auto.
Qed.


(* ================================================================== *)
(** ** The effective prompt *)
(* ================================================================== *)

Lemma edits_settle edits :
  forall s o t,
    preset s = option_value o -> customPrompt s = t ->
    preset (fold_left edit_settings edits s)
    = option_value (selected_entry edits o)
    /\ customPrompt (fold_left edit_settings edits s) = custom_text edits t.
Proof.
  induction edits as [|e edits IH]; intros s o t Hp Hc; simpl; [auto|].
  destruct e as [o' | text | ratio]; apply IH; simpl; auto.
Qed.

Lemma page_settings_fields edits :
  preset (page_settings edits)
  = option_value (selected_entry edits (preset_option SCANDINAVIAN))
  /\ customPrompt (page_settings edits) = custom_text edits "".
Proof. apply edits_settle; reflexivity. Qed.

(** C6, refuted. With the entry "Custom description..." selected and the
    text area left empty, the effective prompt is the marker [CUSTOM],
    which is the description text of no preset. *)
Lemma custom_entry_sends_marker : ~ effective_prompt_claim.
Proof.
  intros Hclaim.
  destruct (Hclaim [select_entry custom_option]) as [_ Hpreset].
  destruct (Hpreset eq_refl) as (p & Hp). destruct p; discriminate.
Qed.

(** C6, amended. The effective prompt is the text of the text area when it
    is not empty, and otherwise the value of the selected entry of the
    preset selector: the description text of the preset for an entry of the
    catalogue, the marker [CUSTOM] for the entry "Custom description...".
    A run computes it once, from the settings it starts with: every request
    its execution sends carries that string in its task instruction (and
    the aspect ratio of those settings), and a run during which the
    settings are edited ends as the run computed with the settings of its
    start. *)
Theorem startProcessing_effective_prompt
    (edits : list SettingsEdit) (env : nat -> ItemEnv) (app : App) :
  finalPrompt (page_settings edits)
  = (if String.eqb (custom_text edits "") ""
     then option_value (selected_entry edits (preset_option SCANDINAVIAN))
     else custom_text edits "")
  /\ (forall i request,
        In (request_started i request) (snd (execute env app)) ->
        nth_error (contents request) 1
        = Some (task_instruction (finalPrompt (settings app)))
        /\ imageConfig request = aspectRatio (settings app))
  /\ (forall evs,
        tasks app = [] ->
        resumptions evs = Some (pending_envs env 0 (images app)) ->
        images (run_events (startProcessing_begin app) evs)
        = images (snd (fst (execute env app)))).
Proof.
  split; [|split].
  - destruct (page_settings_fields edits) as [Hp Hc].
    unfold finalPrompt. rewrite Hp, Hc.
    destruct (custom_text edits ""); reflexivity.
  - intros i request Hin. rewrite execute_startProcessing in Hin.
    cbn [snd] in Hin.
    apply request_of_call in Hin as (b & m & p & a & Hin & ->).
    apply startProcessing_call_arguments in Hin
      as (img & _ & _ & _ & -> & ->).
    split; reflexivity.
  - intros evs Htasks Hres. rewrite execute_startProcessing. cbn [fst snd].
    now apply settings_read_once.
Qed.

(** With the marker selected and no custom text, the request asks for the
    environment "CUSTOM". *)
Lemma custom_entry_request :
  finalPrompt (page_settings [select_entry custom_option]) = "CUSTOM"
  /\ map text (contents (build_request (Some "iVBORw0KGgo=") "image/png"
                           (finalPrompt (page_settings [select_entry custom_option]))
                           ar_1_1))
     = [ None;
         Some "Create a professional lifestyle photo of this product. Environment description: CUSTOM. Ensure the product is perfectly integrated with realistic lighting and shadows." ].
Proof. split; reflexivity. Qed.

(* ================================================================== *)
(** ** The parts that are scanned *)
(* ================================================================== *)

(** C8. [generateLifestyleImage] rejects with its "no image" error exactly
    when the API call resolved and no part of the response, that is, of the
    content of its first candidate, carries inline data (a response
    without candidate, content or parts has no part); when one of these
    parts carries inline data, the call resolves instead. *)
Theorem generateLifestyleImage_no_image_iff
    api base64Data mimeType prompt aspectRatio :
  (generateLifestyleImage api base64Data mimeType prompt aspectRatio
   = Rejected NoImageError
   <->
   exists response,
     api (build_request base64Data mimeType prompt aspectRatio)
     = api_resolves response
     /\ forall ps, parts_of response ps -> Forall no_image ps)
  /\ (forall response ps,
        api (build_request base64Data mimeType prompt aspectRatio)
        = api_resolves response ->
        parts_of response ps ->
        Exists (fun part => inlineData part <> None) ps ->
        exists url,
          generateLifestyleImage api base64Data mimeType prompt aspectRatio
          = Fulfilled url).
Proof.
  unfold generateLifestyleImage.
  destruct (api _) as [response | msg].
  - cbv zeta. destruct (falsy _) eqn:Hf.
    + split.
      * split; [|reflexivity]. intros _. exists response.
        split; [reflexivity|]. intros ps Hps.
        apply parts_of_unique in Hps as ->. now apply falsy_scan_parts.
      * intros r ps Hr Hps Hex. injection Hr as <-.
        apply parts_of_unique in Hps as ->.
        apply falsy_scan_parts in Hf. apply Exists_exists in Hex as (part & Hin & Hpart).
        exfalso. apply Hpart. exact (proj1 (Forall_forall _ _) Hf part Hin).
    + split.
      * split; [discriminate|]. intros (r & Hr & Hall).
        injection Hr as <-.
        specialize (Hall _ (response_parts_of response)).
        apply falsy_scan_parts in Hall. congruence.
      * intros. eexists. reflexivity.
  - split.
    + split; [discriminate|]. intros (r & Hr & _). discriminate.
    + intros r ps Hr. discriminate.
Qed.
